(** * Verification of the cjmines CSP engine and board logic

    Shallow embedding of [src/src/csp/csp.cpp] ([CSPSolver]) and of the board
    operations of [src/src/game_logic.cpp] ([reveal_cell], [toggle_flag_cell],
    [flag_cell], [flag_adjacent_cells], [reveal_adjacent_cells], [field_clear]),
    of board generation and loading ([generate_board], [read_board_from_file]),
    of the display ([get_color_pair], [display_board]) and of the key handling
    and game loop ([create_action_map], [start_game]). *)

From stdpp Require Import base gmap list strings.
From Stdlib Require Import ZArith Lia Ascii.

Open Scope Z_scope.

(* ================================================================= *)
(** ** The generic CSP engine (csp.hpp / csp.cpp) *)

Module CSP.

(** [CSPSolver::Variable], [CSPSolver::Domain], [CSPSolver::Assignment]. *)
Abbreviation Var := string. (* [Variable] is a Rocq keyword *)
Abbreviation Domain := (list Z).
Abbreviation Assignment := (gmap string Z).

(** [CSPSolver::Constraint] is a [std::function<bool(const Assignment&)>].
    A constraint may throw (the example lambdas use [assignment.at], which
    raises [std::out_of_range] on an absent key): [None] is a raised exception. *)
Abbreviation Constraint := (Assignment -> option bool).

(** The three private members of [CSPSolver]. *)
Record CSPSolver := mkSolver {
  variables : list Var;
  domains : gmap string Domain;
  constraints : list Constraint
}.

(** [add_constraint] as the header declares it: [constraints.push_back(c)]. *)
Definition add_constraint (s : CSPSolver) (c : Constraint) : CSPSolver :=
  mkSolver (variables s) (domains s) (constraints s ++ [c]).

(** How a call of [solve] ends: it returns a [bool], an exception escapes it
    ([std::out_of_range] from [domains.at] or from a constraint), or the
    recursion does not terminate within the given fuel. *)
Inductive outcome := Ret (b : bool) | Raised | OutOfFuel.

(** [select_unassigned_variable]: the first registered variable absent from
    the assignment, or the empty string ("Should never reach here"). *)
Definition select_unassigned_variable (s : CSPSolver) (a : Assignment) : Var :=
  match list_find (fun v => a !! v = None) (variables s) with
  | Some (_, v) => v
  | None => ""
  end.

(** [is_consistent]: the constraints in registration order; the first one
    that throws or returns false decides. *)
Fixpoint check_all (cs : list Constraint) (a : Assignment) : option bool :=
  match cs with
  | [] => Some true
  | c :: cs' =>
      match c a with
      | None => None
      | Some false => Some false
      | Some true => check_all cs' a
      end
  end.

Definition is_consistent (s : CSPSolver) (a : Assignment) : option bool :=
  check_all (constraints s) a.

(** [CSPSolver::solve].  The assignment is passed by reference: the model
    returns the final state of the caller's map along with the outcome.
    The inner [loop] is the [for (int value : domains.at(var))] loop; a
    failed value is undone with [assignment.erase(var)]. *)
Fixpoint solve (s : CSPSolver) (fuel : nat) (a : Assignment) : outcome * Assignment :=
  match fuel with
  | O => (OutOfFuel, a)
  | S f =>
      if Nat.eqb (size a) (length (variables s)) then (Ret true, a) else
      let var := select_unassigned_variable s a in
      match domains s !! var with
      | None => (Raised, a)
      | Some dom =>
          (fix loop (vals : list Z) (a : Assignment) : outcome * Assignment :=
             match vals with
             | [] => (Ret false, a)
             | value :: rest =>
                 let a1 := <[var := value]> a in
                 match is_consistent s a1 with
                 | None => (Raised, a1)
                 | Some true =>
                     match solve s f a1 with
                     | (Ret true, a2) => (Ret true, a2)
                     | (Ret false, a2) => loop rest (delete var a2)
                     | (r, a2) => (r, a2)
                     end
                 | Some false => loop rest (delete var a1)
                 end
             end) dom a
      end
  end.

(** The value loop of [solve] as a function of its own, for reasoning. *)
Fixpoint value_loop (s : CSPSolver) (f : nat) (var : Var)
    (vals : list Z) (a : Assignment) : outcome * Assignment :=
  match vals with
  | [] => (Ret false, a)
  | value :: rest =>
      let a1 := <[var := value]> a in
      match is_consistent s a1 with
      | None => (Raised, a1)
      | Some true =>
          match solve s f a1 with
          | (Ret true, a2) => (Ret true, a2)
          | (Ret false, a2) => value_loop s f var rest (delete var a2)
          | (r, a2) => (r, a2)
          end
      | Some false => value_loop s f var rest (delete var a1)
      end
  end.

(** A complete assignment: exactly the registered variables are bound, each
    to a value of its domain. *)
Definition complete (s : CSPSolver) (sigma : Assignment) : Prop :=
  (forall k, is_Some (sigma !! k) <-> k ∈ variables s) /\
  (forall k v, sigma !! k = Some v ->
     exists d, domains s !! k = Some d /\ v ∈ d).

Definition satisfies (s : CSPSolver) (sigma : Assignment) : Prop :=
  forall c, c ∈ constraints s -> c sigma = Some true.

(** The contract the engine puts on its constraints (spec 4.3): evaluated on a
    partial assignment, a constraint treats absent variables as unknown, so a
    constraint that holds on an assignment holds on each of its parts. *)
Definition partial_tolerant (s : CSPSolver) : Prop :=
  forall c b sigma, c ∈ constraints s -> b ⊆ sigma ->
    c sigma = Some true -> c b = Some true.

(** [assignment.at(k)]: the bound value, or [std::out_of_range]. *)
Definition at_ (a : Assignment) (k : Var) : option Z := a !! k.

(** The lambdas of the example program: [at(x) != at(y)], and the
    replacement [at(x) == at(y)]. *)
Definition neq_constraint (x y : Var) : Constraint := fun a =>
  match at_ a x, at_ a y with
  | Some u, Some v => Some (negb (Z.eqb u v))
  | _, _ => None
  end.

Definition eq_constraint (x y : Var) : Constraint := fun a =>
  match at_ a x, at_ a y with
  | Some u, Some v => Some (Z.eqb u v)
  | _, _ => None
  end.

(** [main] of csp.hpp: variables A, B, C with domain {1,2,3} each. *)
Definition example_solver0 : CSPSolver :=
  mkSolver ["A"; "B"; "C"]
    (<["A" := [1; 2; 3]]> (<["B" := [1; 2; 3]]> (<["C" := [1; 2; 3]]> ∅)))
    [].

Definition example_solver : CSPSolver :=
  add_constraint (add_constraint (add_constraint example_solver0
    (neq_constraint "A" "B")) (neq_constraint "B" "C")) (neq_constraint "A" "C").

(** The example with one of its constraints replaced by [at(A) == at(B)]. *)
Definition example_solver_eq_AB : CSPSolver :=
  add_constraint (add_constraint (add_constraint example_solver0
    (eq_constraint "A" "B")) (neq_constraint "B" "C")) (neq_constraint "A" "C").

Definition example_solver_eq_BC : CSPSolver :=
  add_constraint (add_constraint (add_constraint example_solver0
    (neq_constraint "A" "B")) (eq_constraint "A" "B")) (neq_constraint "A" "C").

Definition example_solver_eq_AC : CSPSolver :=
  add_constraint (add_constraint (add_constraint example_solver0
    (neq_constraint "A" "B")) (neq_constraint "B" "C")) (eq_constraint "A" "B").

(** The same lambdas written against the engine's contract (spec 4.3): an
    absent variable makes the constraint vacuously true. *)
Definition neq_tolerant (x y : Var) : Constraint := fun a =>
  match a !! x, a !! y with
  | Some u, Some v => Some (negb (Z.eqb u v))
  | _, _ => Some true
  end.

Definition eq_tolerant (x y : Var) : Constraint := fun a =>
  match a !! x, a !! y with
  | Some u, Some v => Some (Z.eqb u v)
  | _, _ => Some true
  end.

Definition tolerant_solver : CSPSolver :=
  add_constraint (add_constraint (add_constraint example_solver0
    (neq_tolerant "A" "B")) (neq_tolerant "B" "C")) (neq_tolerant "A" "C").

Definition tolerant_solver_eq_BC : CSPSolver :=
  add_constraint (add_constraint (add_constraint example_solver0
    (neq_tolerant "A" "B")) (eq_tolerant "A" "B")) (neq_tolerant "A" "C").

(** Small instances exercising the engine's edge cases. *)
Definition throwing_solver : CSPSolver :=
  mkSolver ["A"; "B"] (<["A" := [1]]> (<["B" := [1]]> ∅)) [eq_constraint "A" "B"].

Definition duplicate_solver : CSPSolver :=
  mkSolver ["A"; "A"] (<["A" := [1]]> ∅) [].

Definition blank_domain_solver : CSPSolver :=
  mkSolver ["A"] (<["A" := [1]]> (<["" := [7]]> ∅)) [fun _ => Some false].

Definition two_var_solver : CSPSolver :=
  mkSolver ["A"; "B"] (<["A" := [1]]> (<["B" := [1]]> ∅)) [].

(** Helper predicates of the proofs. *)

(** The caller's map agrees with [a] on every key, except the empty-string
    key when [a] binds it. *)
Definition agree_but_blank (a b : Assignment) : Prop :=
  forall k, (k <> "" \/ a !! "" = None) -> b !! k = a !! k.

(** [a] binds registered variables only. *)
Definition wf (s : CSPSolver) (a : Assignment) : Prop :=
  forall k, is_Some (a !! k) -> k ∈ variables s.

(** Every binding of [a] is a value of its variable's domain. *)
Definition valid (s : CSPSolver) (a : Assignment) : Prop :=
  forall k v, a !! k = Some v -> exists d, domains s !! k = Some d /\ v ∈ d.

(** A value of the selected variable is tried when the consistency check of
    its binding fails, or passes and the recursive call fails. *)
Definition value_tried (s : CSPSolver) (f : nat) (a : Assignment) (x : Var) (v : Z) : Prop :=
  is_consistent s (<[x := v]> a) = Some false \/
  (is_consistent s (<[x := v]> a) = Some true /\ fst (solve s f (<[x := v]> a)) = Ret false).

(** The permutation A = 1, B = 2, C = 3. *)
Definition example_permutation : Assignment :=
  <["A" := 1]> (<["B" := 2]> (<["C" := 3]> ∅)).

End CSP.

(* ================================================================= *)
(** ** The Deduction Propagator (spec 4.4) *)

Module Propagator.
Import CSP.

(** Modelled from the spec: the Deduction Propagator, whose source
    (solver.hpp, included by game_logic.cpp) is not part of src/.  A frontier
    variable takes [SAFE] or [MINE]; each variable is classified from two runs
    of the engine ([CSPSolver::solve]), one with it pre-bound to [SAFE] and one
    with it pre-bound to [MINE], all else free.  A run that raises or does not
    finish within its fuel does not count as a success. *)
Definition SAFE : Z := 0.
Definition MINE : Z := 1.

Inductive classification := ForcedSafe | ForcedMine | Ambiguous | Inconsistent.

#[global] Instance classification_eq_dec : EqDecision classification.
Proof. solve_decision. Defined.

Definition engine_succeeds (s : CSPSolver) (a : Assignment) : bool :=
  match fst (solve s (S (length (variables s))) a) with
  | Ret true => true
  | _ => false
  end.

Definition classify (s : CSPSolver) (x : Var) : classification :=
  match engine_succeeds s {[x := SAFE]}, engine_succeeds s {[x := MINE]} with
  | true, false => ForcedSafe
  | false, true => ForcedMine
  | true, true => Ambiguous
  | false, false => Inconsistent
  end.

(** One propagation round: the forced-safe and the forced-mine frontier
    variables. *)
Definition propagate (s : CSPSolver) (frontier : list Var) : list Var * list Var :=
  (filter (fun x => classify s x = ForcedSafe) frontier,
   filter (fun x => classify s x = ForcedMine) frontier).

End Propagator.

(* ================================================================= *)
(** ** The board (game_logic.hpp / game_logic.cpp) *)

Module Board.

(** [struct Cell]. *)
Record Cell := mkCell {
  is_mine : bool;
  is_revealed : bool;
  is_flagged : bool;
  safe_start : bool;
  adjacent_mines : Z
}.

Definition default_cell : Cell := mkCell false false false false 0.

(** [using Board = std::vector<std::vector<Cell>>]. *)
Abbreviation Board := (list (list Cell)).

(** [board.size()] and [board.at(0).size()] (the latter is only evaluated
    once [row < board.size()], so on a non-empty board). *)
Definition height (b : Board) : Z := Z.of_nat (length b).
Definition width (b : Board) : Z :=
  match b with [] => 0 | row :: _ => Z.of_nat (length row) end.

(** [r >= 0 && r < board.size() && c >= 0 && c < board[0].size()]. *)
Definition in_bounds (b : Board) (r c : Z) : bool :=
  (0 <=? r) && (r <? height b) && (0 <=? c) && (c <? width b).

(** [board[r][c]].  The code reads a cell only at in-bounds coordinates;
    outside the vectors the read is undefined in C++, and the model returns
    [default_cell] there. *)
Definition cell_at (b : Board) (r c : Z) : Cell :=
  if (r <? 0) || (c <? 0) then default_cell else
  match b !! Z.to_nat r with
  | Some row => match row !! Z.to_nat c with Some x => x | None => default_cell end
  | None => default_cell
  end.

(** [board[r][c] = g(board[r][c])]: a write to one cell. *)
Definition update_cell (g : Cell -> Cell) (b : Board) (r c : Z) : Board :=
  if (r <? 0) || (c <? 0) then b else alter (alter g (Z.to_nat c)) (Z.to_nat r) b.

Definition set_revealed (x : Cell) : Cell :=
  mkCell (is_mine x) true (is_flagged x) (safe_start x) (adjacent_mines x).

Definition set_flagged (v : bool) (x : Cell) : Cell :=
  mkCell (is_mine x) (is_revealed x) v (safe_start x) (adjacent_mines x).

(** The [for (int i = -1; i <= 1; i++) for (int j = -1; j <= 1; j++)]
    iteration order. *)
Definition offsets : list (Z * Z) :=
  [(-1, -1); (-1, 0); (-1, 1); (0, -1); (0, 0); (0, 1); (1, -1); (1, 0); (1, 1)].

(** The double loop of a board operation over the 3x3 block around
    [(row, col)], threading the board through [step]; [None] propagates a
    recursive call that ran out of fuel. *)
Fixpoint for_offsets (step : Board -> Z -> Z -> option Board) (row col : Z)
    (offs : list (Z * Z)) (b : Board) : option Board :=
  match offs with
  | [] => Some b
  | (i, j) :: rest =>
      match step b (row + i) (col + j) with
      | None => None
      | Some b' => for_offsets step row col rest b'
      end
  end.

(** The [flagged_neighbors] count of [reveal_cell]. *)
Definition count_flagged_neighbors (b : Board) (row col : Z) : Z :=
  fold_left (fun n '(i, j) =>
    if in_bounds b (row + i) (col + j) && is_flagged (cell_at b (row + i) (col + j))
    then n + 1 else n) offsets 0.

(** The body of the chord loop of [reveal_cell]: reveal an in-bounds,
    unflagged neighbour; [rec] is the recursive call. *)
Definition chord_step (rec : Board -> Z -> Z -> option (bool * Board))
    (bb : Board) (r c : Z) : option Board :=
  if in_bounds bb r c && negb (is_flagged (cell_at bb r c))
  then option_map snd (rec bb r c) else Some bb.

(** The body of the zero-count loop: [reveal_cell(board, row + i, col + j)]
    on every position of the block, bounds checked by the callee. *)
Definition cascade_step (rec : Board -> Z -> Z -> option (bool * Board))
    (bb : Board) (r c : Z) : option Board :=
  option_map snd (rec bb r c).

(** [reveal_cell].  The recursion of the C++ code terminates because each
    nested call reveals a fresh cell; the model bounds it with [fuel] and
    returns [None] when the fuel runs out.  The results of the recursive calls
    are discarded, as in the source. *)
Fixpoint reveal_cell (fuel : nat) (b : Board) (row col : Z) : option (bool * Board) :=
  match fuel with
  | O => None
  | S f =>
      if (row <? 0) || (height b <=? row) || (col <? 0) || (width b <=? col) ||
         is_revealed (cell_at b row col) || is_flagged (cell_at b row col)
      then Some (true, b) else
      let b1 := update_cell set_revealed b row col in
      if is_mine (cell_at b1 row col) then Some (false, b1) else
      let flagged_neighbors := count_flagged_neighbors b1 row col in
      let adjacent_count := adjacent_mines (cell_at b1 row col) in
      match (if Z.eqb flagged_neighbors adjacent_count
             then for_offsets (chord_step (reveal_cell f)) row col offsets b1
             else Some b1) with
      | None => None
      | Some b2 =>
          if Z.eqb (adjacent_mines (cell_at b2 row col)) 0
          then option_map (fun b3 => (true, b3))
                 (for_offsets (cascade_step (reveal_cell f)) row col offsets b2)
          else Some (true, b2)
      end
  end.

(** [reveal_adjacent_cells]: stops at the first call that hits a mine. *)
Definition reveal_adjacent_cells (fuel : nat) (b : Board) (row col : Z) : option (bool * Board) :=
  (fix go (offs : list (Z * Z)) (b : Board) : option (bool * Board) :=
     match offs with
     | [] => Some (true, b)
     | (i, j) :: rest =>
         match reveal_cell fuel b (row + i) (col + j) with
         | None => None
         | Some (false, b') => Some (false, b')
         | Some (true, b') => go rest b'
         end
     end) offsets b.

Definition toggle_flag_cell (b : Board) (row col : Z) : Board :=
  if in_bounds b row col && negb (is_revealed (cell_at b row col))
  then update_cell (fun x => set_flagged (negb (is_flagged x)) x) b row col
  else b.

Definition flag_cell (b : Board) (row col : Z) : Board :=
  if in_bounds b row col && negb (is_revealed (cell_at b row col))
  then update_cell (set_flagged true) b row col
  else b.

Definition flag_adjacent_cells (b : Board) (row col : Z) : Board :=
  fold_left (fun bb '(i, j) => flag_cell bb (row + i) (col + j)) offsets b.

(** [field_clear]: every cell is a flagged mine or a revealed non-mine. *)
Definition field_clear (b : Board) : bool :=
  forallb (fun row => forallb (fun cell =>
    (is_mine cell && is_flagged cell) || (negb (is_mine cell) && is_revealed cell)) row) b.

(** Fuel enough for any call of [reveal_cell] on [b]: one more than the
    number of cells. *)
Definition reveal_fuel (b : Board) : nat := S (sum_list_with length b).

(** The public board operations, as the key handlers of [create_action_map]
    call them. *)
Inductive op :=
  | Reveal (row col : Z)
  | RevealAdjacent (row col : Z)
  | ToggleFlag (row col : Z)
  | Flag (row col : Z)
  | FlagAdjacent (row col : Z).

Definition exec_op (o : op) (b : Board) : option Board :=
  match o with
  | Reveal r c => option_map snd (reveal_cell (reveal_fuel b) b r c)
  | RevealAdjacent r c => option_map snd (reveal_adjacent_cells (reveal_fuel b) b r c)
  | ToggleFlag r c => Some (toggle_flag_cell b r c)
  | Flag r c => Some (flag_cell b r c)
  | FlagAdjacent r c => Some (flag_adjacent_cells b r c)
  end.

Fixpoint exec_ops (os : list op) (b : Board) : option Board :=
  match os with
  | [] => Some b
  | o :: rest => match exec_op o b with None => None | Some b' => exec_ops rest b' end
  end.

(** Concrete boards. *)
Definition hidden (mine : bool) (n : Z) : Cell := mkCell mine false false false n.

(** A 1x3 row laid out as [generate_board] would: a mine, a 1, a 0. *)
Definition row_m10 : Board := [[hidden true 0; hidden false 1; hidden false 0]].

(** A 1x4 mine-free row. *)
Definition row_0000 : Board :=
  [[hidden false 0; hidden false 0; hidden false 0; hidden false 0]].

(** A 1x3 row as [read_board_from_file] loads the file line "0 M 0". *)
Definition row_0m0 : Board := [[hidden false 0; hidden true 0; hidden false 0]].

(** Predicates of the board proofs. *)

(** The row lengths of a board. *)
Definition shape (b : Board) : list nat := length <$> b.

(** Every row is as wide as the first one. *)
Definition rectangular (b : Board) : Prop :=
  Forall (fun n => Z.of_nat n = width b) (shape b).

(** [b'] arises from [b] by revealing unflagged cells only. *)
Definition reveal_rel (b b' : Board) : Prop :=
  shape b' = shape b /\
  forall r c, cell_at b' r c = cell_at b r c \/
    (is_flagged (cell_at b r c) = false /\ cell_at b' r c = set_revealed (cell_at b r c)).

(** Every non-mine zero-count cell revealed on the way from [b] to [b'] has
    all its in-bounds unflagged neighbours revealed in [b']. *)
Definition cascaded (b b' : Board) : Prop :=
  forall r c, is_revealed (cell_at b r c) = false -> is_revealed (cell_at b' r c) = true ->
  is_mine (cell_at b r c) = false -> adjacent_mines (cell_at b r c) = 0 ->
  forall i j, -1 <= i <= 1 -> -1 <= j <= 1 -> in_bounds b (r + i) (c + j) = true ->
  is_flagged (cell_at b (r + i) (c + j)) = false ->
  is_revealed (cell_at b' (r + i) (c + j)) = true.

(** Counting the cells of a shape that satisfy [P]. *)
Fixpoint count_cols (P : Z -> bool) (n : nat) : nat :=
  match n with
  | O => O
  | S n' => ((if P (Z.of_nat n') then 1 else 0) + count_cols P n')%nat
  end.

Fixpoint count_cells (P : Z -> Z -> bool) (sh : list nat) (r : Z) : nat :=
  match sh with
  | [] => O
  | n :: sh' => (count_cols (P r) n + count_cells P sh' (r + 1))%nat
  end.

(** The number of unrevealed cells. *)
Definition unrevealed (b : Board) : nat :=
  count_cells (fun r c => negb (is_revealed (cell_at b r c))) (shape b) 0.

(** Every cell of the board satisfies [P]. *)
Definition all_cells (P : Cell -> Prop) (b : Board) : Prop := Forall (Forall P) b.

(** No cell is both revealed and flagged. *)
Definition no_revealed_flag (b : Board) : Prop :=
  all_cells (fun x => is_revealed x && is_flagged x = false) b.

(** A 1x2 row whose non-mine is revealed while its mine is not flagged. *)
Definition mine_unflagged : Board := [[hidden true 0; mkCell false true false false 1]].

(** The zero-connected region of [(r0, c0)] with its numbered boundary: the
    cells reachable from it by steps between 8-adjacent in-bounds cells, each
    step leaving a non-mine cell whose adjacent-mine count is zero. *)
Inductive zero_reach (b : Board) (r0 c0 : Z) : Z -> Z -> Prop :=
  | zr_start : zero_reach b r0 c0 r0 c0
  | zr_step r c i j :
      zero_reach b r0 c0 r c ->
      is_mine (cell_at b r c) = false -> adjacent_mines (cell_at b r c) = 0 ->
      -1 <= i <= 1 -> -1 <= j <= 1 -> in_bounds b (r + i) (c + j) = true ->
      zero_reach b r0 c0 (r + i) (c + j).

End Board.

(* ================================================================= *)
(** ** Board generation, display and key handling ([game_logic.cpp]) *)

Module Game.
Import Board.

(** *** [generate_board] *)

Definition set_mine (x : Cell) : Cell :=
  mkCell true (is_revealed x) (is_flagged x) (safe_start x) (adjacent_mines x).

Definition set_adjacent (n : Z) (x : Cell) : Cell :=
  mkCell (is_mine x) (is_revealed x) (is_flagged x) (safe_start x) n.

(** [std::vector<std::vector<Cell>> board(height, std::vector<Cell>(width))]
    for non-negative sizes. *)
Definition empty_board (height width : Z) : Board :=
  repeat (repeat default_cell (Z.to_nat width)) (Z.to_nat height).

(** The placement loop [while (mines_placed < mines_count)].  The values of
    [std::rand()] are read from [rands], two per iteration (row first); the
    model returns [None] when they run out, so a loop that never ends returns
    [None] on every finite stream.  On a board with no rows or no columns,
    [std::rand() % board.size()] (or [% board[0].size()]) divides by zero and
    the program dies: [None] as well. *)
Fixpoint place_mines (mines_count : Z) (rands : list Z) (b : Board) (mines_placed : Z)
    : option Board :=
  if mines_placed <? mines_count then
    if (height b =? 0) || (width b =? 0) then None else
    match rands with
    | x :: y :: rest =>
        let row := x mod height b in
        let col := y mod width b in
        if negb (is_mine (cell_at b row col))
        then place_mines mines_count rest (update_cell set_mine b row col) (mines_placed + 1)
        else place_mines mines_count rest b mines_placed
    | _ => None
    end
  else Some b.

(** The [count] of the inner loop of the second pass. *)
Definition count_mines_around (b : Board) (row col : Z) : Z :=
  fold_left (fun n '(i, j) =>
    if in_bounds b (row + i) (col + j) && is_mine (cell_at b (row + i) (col + j))
    then n + 1 else n) offsets 0.

(** [for (int k = i; k < i + n; k++) body(k)] threading the board. *)
Fixpoint for_range (i : Z) (n : nat) (body : Z -> Board -> Board) (b : Board) : Board :=
  match n with
  | O => b
  | S n' => for_range (i + 1) n' body (body i b)
  end.

Definition adjacency_step (row col : Z) (b : Board) : Board :=
  if negb (is_mine (cell_at b row col))
  then update_cell (set_adjacent (count_mines_around b row col)) b row col
  else b.

(** The second pass of [generate_board]: every non-mine cell gets the number
    of mines among its in-bounds neighbours. *)
Definition set_adjacency (b : Board) : Board :=
  for_range 0 (Z.to_nat (height b))
    (fun row bb => for_range 0 (Z.to_nat (width bb)) (fun col => adjacency_step row col) bb) b.

(** [generate_board(mines_count, height, width)]; [None] when it does not
    return a board: a negative size makes the [std::vector] constructor throw
    [std::length_error], and the placement loop may crash or never end. *)
Definition generate_board (mines_count height width : Z) (rands : list Z) : option Board :=
  if (height <? 0) || (width <? 0) then None else
  option_map set_adjacency (place_mines mines_count rands (empty_board height width) 0).

(** *** [get_color_pair] and [display_board] *)

Definition get_color_pair (number : Z) (is_cursor : bool) : Z :=
  if is_cursor then 10 else
  if number =? 0 then 9 else if number =? 1 then 2 else if number =? 2 then 3 else
  if number =? 3 then 4 else if number =? 4 then 5 else if number =? 5 then 6 else
  if number =? 6 then 7 else if number =? 7 then 8 else 1.

(** What [display_board] prints for one cell: ["* "], ["X "], ["F "], ["M "]
    or the number, with the colour pair switched on around it ([None]: printed
    without [attron]). *)
Inductive glyph := GHidden | GSafeStart | GFlag | GMine | GNumber (n : Z).

Definition display_cell (curr_cell : Cell) (is_cursor : bool) : glyph * option Z :=
  let color_pair := get_color_pair (adjacent_mines curr_cell) is_cursor in
  let is_untouched := negb (is_revealed curr_cell) && negb (is_flagged curr_cell) in
  if is_untouched then
    if is_cursor then (GHidden, Some 10)
    else if safe_start curr_cell then (GSafeStart, Some 1)
    else (GHidden, Some 1)
  else if is_flagged curr_cell then
    if is_cursor then (GFlag, Some color_pair) else (GFlag, Some 11)
  else if is_mine curr_cell then (GMine, None)
  else (GNumber (adjacent_mines curr_cell), Some color_pair).

(** The ["Remaining mines: %d"] counter of [display_board]. *)
Definition remaining_mines (b : Board) : Z :=
  fold_left (fun n row => fold_left (fun n cell =>
    if is_mine cell && negb (is_flagged cell) then n + 1 else n) row n) b 0.

(** The counter and the grid [display_board] prints. *)
Definition display_board (b : Board) (cursor_row cursor_col : Z)
    : Z * list (list (glyph * option Z)) :=
  (remaining_mines b,
   map (fun row => map (fun col =>
          display_cell (cell_at b row col) ((row =? cursor_row) && (col =? cursor_col)))
        (seqZ 0 (width b))) (seqZ 0 (height b))).

(** *** [create_action_map] and the game loop of [start_game] *)

Record GameState := mkState {
  cursor_row : Z;
  cursor_col : Z;
  board : Board;
  game_over : bool
}.

Definition set_cursor (r c : Z) (st : GameState) : GameState :=
  mkState r c (board st) (game_over st).
Definition set_board (b : Board) (st : GameState) : GameState :=
  mkState (cursor_row st) (cursor_col st) b (game_over st).
Definition set_game_over (st : GameState) : GameState :=
  mkState (cursor_row st) (cursor_col st) (board st) true.

(** ncurses' [KEY_DOWN], [KEY_UP], [KEY_LEFT], [KEY_RIGHT]. *)
Definition KEY_DOWN : Z := 258.
Definition KEY_UP : Z := 259.
Definition KEY_LEFT : Z := 260.
Definition KEY_RIGHT : Z := 261.

Definition key (c : Ascii.ascii) : Z := Z.of_nat (Ascii.nat_of_ascii c).

(** [selected_map]: up, down, left, right. *)
Definition direction_keys (vim : bool) : Z * Z * Z * Z :=
  if vim then (key "k"%char, key "j"%char, key "h"%char, key "l"%char)
  else (KEY_UP, KEY_DOWN, KEY_LEFT, KEY_RIGHT).

(** [action_map[ch]()] when [ch] is a key of the map, nothing otherwise.
    [None]: a reveal ran out of fuel (it does not on rectangular boards). *)
Definition action (vim : bool) (ch : Z) (st : GameState) : option GameState :=
  let '(up_key, down_key, left_key, right_key) := direction_keys vim in
  let b := board st in
  let r := cursor_row st in
  let c := cursor_col st in
  if ch =? up_key then Some (set_cursor (Z.max 0 (r - 1)) c st)
  else if ch =? down_key then Some (set_cursor (Z.min (height b - 1) (r + 1)) c st)
  else if ch =? left_key then Some (set_cursor r (Z.max 0 (c - 1)) st)
  else if ch =? right_key then Some (set_cursor r (Z.min (width b - 1) (c + 1)) st)
  else if ch =? key "d"%char then
    match reveal_cell (reveal_fuel b) b r c with
    | Some (ok, b') =>
        let st' := set_board b' st in Some (if ok then st' else set_game_over st')
    | None => None
    end
  else if ch =? key "D"%char then
    match reveal_adjacent_cells (reveal_fuel b) b r c with
    | Some (ok, b') =>
        let st' := set_board b' st in Some (if ok then st' else set_game_over st')
    | None => None
    end
  else if ch =? key "f"%char then Some (set_board (toggle_flag_cell b r c) st)
  else if ch =? key "F"%char then Some (set_board (flag_adjacent_cells b r c) st)
  else if ch =? key "q"%char then Some (set_game_over st)
  else Some st.

(** [while (!game_over)] of [start_game], reading the keys from [keys]; when
    they run out the state reached so far is returned. *)
Fixpoint game_loop (vim : bool) (keys : list Z) (st : GameState) : option GameState :=
  if game_over st then Some st else
  match keys with
  | [] => Some st
  | ch :: rest =>
      match action vim ch st with
      | None => None
      | Some st1 =>
          game_loop vim rest (if field_clear (board st1) then set_game_over st1 else st1)
      end
  end.

(** The message [start_game] prints after the loop. *)
Definition final_message (b : Board) : string :=
  if field_clear b then "Well done, you've won :)" else "You hit a mine :(".

(** *** [read_board_from_file] *)

(** The pieces of [s] between the characters satisfying [p]. *)
Fixpoint split_on (p : ascii -> bool) (s : string) : list string :=
  match s with
  | EmptyString => [EmptyString]
  | String ch rest =>
      let segs := split_on p rest in
      if p ch then EmptyString :: segs
      else match segs with
           | seg :: segs' => String ch seg :: segs'
           | [] => [String ch EmptyString]
           end
  end.

Fixpoint drop_final_empty (segs : list string) : list string :=
  match segs with
  | [] => []
  | [EmptyString] => []
  | seg :: rest => seg :: drop_final_empty rest
  end.

(** The lines successive [std::getline] calls return: the text between
    newlines, with no line after a final newline. *)
Definition getline_lines (s : string) : list string :=
  drop_final_empty (split_on (fun ch => Ascii.eqb ch "010"%char) s).

(** [isspace] in the C locale. *)
Definition is_space (ch : ascii) : bool :=
  let n := Ascii.nat_of_ascii ch in (n =? 32)%nat || ((9 <=? n)%nat && (n <=? 13)%nat).

(** The words [iss >> value] extracts from a line. *)
Definition tokens (line : string) : list string :=
  List.filter (fun t => negb (String.eqb t EmptyString)) (split_on is_space line).

Definition digit_value (ch : ascii) : option Z :=
  let n := Ascii.nat_of_ascii ch in
  if ((48 <=? n)%nat && (n <=? 57)%nat) then Some (Z.of_nat n - 48) else None.

(** The decimal digits at the start of [s]: their value and how many. *)
Fixpoint read_digits (s : string) (acc : Z) (count : nat) : Z * nat :=
  match s with
  | String ch rest =>
      match digit_value ch with
      | Some d => read_digits rest (10 * acc + d) (S count)
      | None => (acc, count)
      end
  | EmptyString => (acc, count)
  end.

Fixpoint skip_spaces (s : string) : string :=
  match s with
  | String ch rest => if is_space ch then skip_spaces rest else s
  | EmptyString => s
  end.

(** [std::stoi(s)] ([strtol] in base 10): leading white space, an optional
    sign, then at least one digit, read up to the first non-digit.  [None]
    is a thrown [std::invalid_argument] (no digit) or [std::out_of_range]
    (outside [int]). *)
Definition stoi (s : string) : option Z :=
  let s1 := skip_spaces s in
  let '(sign, s2) :=
    match s1 with
    | String ch rest =>
        if Ascii.eqb ch "+"%char then (1, rest)
        else if Ascii.eqb ch "-"%char then (-1, rest) else (1, s1)
    | EmptyString => (1, s1)
    end in
  let '(v, n) := read_digits s2 0 0 in
  if (n =? 0)%nat then None else
  let r := sign * v in
  if (- 2 ^ 31 <=? r) && (r <=? 2 ^ 31 - 1) then Some r else None.

(** The inner [while (iss >> value)] loop. *)
Fixpoint read_row (values : list string) (row : list Cell) (mine_count : Z)
    : option (list Cell * Z) :=
  match values with
  | [] => Some (row, mine_count)
  | value :: rest =>
      if String.eqb value "M" then
        read_row rest (row ++ [mkCell true false false false 0]) (mine_count + 1)
      else match stoi value with
           | Some n => read_row rest (row ++ [mkCell false false false false n]) mine_count
           | None => None
           end
  end.

(** The outer [while (std::getline(file, line))] loop. *)
Fixpoint read_rows (lines : list string) (board : Board) (mine_count : Z)
    : option (Board * Z) :=
  match lines with
  | [] => Some (board, mine_count)
  | line :: rest =>
      match read_row (tokens line) [] mine_count with
      | Some (row, mine_count') => read_rows rest (board ++ [row]) mine_count'
      | None => None
      end
  end.

(** [read_board_from_file] on the contents of the file ([None]: the file
    does not open).  [None] as a result is a thrown exception. *)
Definition read_board_from_file (file : option string) : option (Board * Z) :=
  match file with
  | None => None
  | Some content => read_rows (getline_lines content) [] 0
  end.

(** *** [handle_command_line_args] and the board setup of [start_game] *)

Record Options := mkOptions {
  opt_width : Z;
  opt_height : Z;
  opt_mines_count : Z;
  opt_no_guess : bool;
  opt_vim : bool;
  opt_file_path : string
}.

(** The values [start_game] initialises the options with. *)
Definition default_options : Options := mkOptions 10 10 10 false false "".

(** The loop over [argv[1..]]; [None] is an exception of [std::stoi].  The
    help text and the error message are output only. *)
Fixpoint handle_args (args : list string) (o : Options) (early_return : bool)
    : option (Options * bool) :=
  match args with
  | [] => Some (o, early_return)
  | arg :: rest =>
      let has_value := match rest with [] => false | _ => true end in
      if String.eqb arg "--width" && has_value then
        match rest with
        | v :: rest' =>
            match stoi v with
            | Some n => handle_args rest' (mkOptions n (opt_height o) (opt_mines_count o)
                          (opt_no_guess o) (opt_vim o) (opt_file_path o)) early_return
            | None => None
            end
        | [] => None
        end
      else if String.eqb arg "--height" && has_value then
        match rest with
        | v :: rest' =>
            match stoi v with
            | Some n => handle_args rest' (mkOptions (opt_width o) n (opt_mines_count o)
                          (opt_no_guess o) (opt_vim o) (opt_file_path o)) early_return
            | None => None
            end
        | [] => None
        end
      else if String.eqb arg "--mines" && has_value then
        match rest with
        | v :: rest' =>
            match stoi v with
            | Some n => handle_args rest' (mkOptions (opt_width o) (opt_height o) n
                          (opt_no_guess o) (opt_vim o) (opt_file_path o)) early_return
            | None => None
            end
        | [] => None
        end
      else if String.eqb arg "--ng" then
        handle_args rest (mkOptions (opt_width o) (opt_height o) (opt_mines_count o)
                           true (opt_vim o) (opt_file_path o)) early_return
      else if String.eqb arg "--vim" then
        handle_args rest (mkOptions (opt_width o) (opt_height o) (opt_mines_count o)
                           (opt_no_guess o) true (opt_file_path o)) early_return
      else if String.eqb arg "--file" && has_value then
        match rest with
        | v :: rest' =>
            handle_args rest' (mkOptions (opt_width o) (opt_height o) (opt_mines_count o)
                                (opt_no_guess o) (opt_vim o) v) early_return
        | [] => None
        end
      else if String.eqb arg "--help" then handle_args rest o true
      else handle_args rest o true
  end.

(** [handle_command_line_args(argc, argv, ...)] with [args = argv[1..]]:
    the options it writes back and the [early_return] it returns. *)
Definition handle_command_line_args (args : list string) (o : Options)
    : option (Options * bool) :=
  handle_args args o false.

(** The board and mine count [start_game] has before the no-guess step, for
    command line [args]; [files] gives the contents of the files that open,
    [rands] the values of [std::rand()]. *)
Definition start_board (args : list string) (files : string -> option string)
    (rands : list Z) : option (Board * Z * Options) :=
  match handle_command_line_args args default_options with
  | None => None
  | Some (o, early_return) =>
      if negb (String.eqb (opt_file_path o) "") then
        match read_board_from_file (files (opt_file_path o)) with
        | Some (b, mine_count) => Some (b, mine_count, o)
        | None => None
        end
      else
        match generate_board (opt_mines_count o) (opt_width o) (opt_height o) rands with
        | Some b => Some (b, opt_mines_count o, o)
        | None => None
        end
  end.

(** *** Predicates of the proofs *)

(** The number of cells satisfying [p]. *)
Definition cells_where (p : Cell -> bool) (b : Board) : nat :=
  sum_list_with (sum_list_with (fun x => if p x then 1%nat else 0%nat)) b.

(** Every non-mine cell holds the number of mines around it. *)
Definition counts_consistent (b : Board) : bool :=
  forallb (fun r => forallb (fun c =>
    is_mine (cell_at b r c) || (adjacent_mines (cell_at b r c) =? count_mines_around b r c))
    (seqZ 0 (width b))) (seqZ 0 (height b)).

(** Every flag is on a mine. *)
Definition flags_correct (b : Board) : Prop :=
  all_cells (fun x => implb (is_flagged x) (is_mine x) = true) b.

(** A cell as the placement loop of [generate_board] leaves it. *)
Definition placed_cell (x : Cell) : Prop :=
  is_revealed x = false /\ is_flagged x = false /\ safe_start x = false /\ adjacent_mines x = 0.

(** [bb] differs from [b0] at most in the counts of non-mine cells. *)
Definition counts_only (b0 bb : Board) : Prop :=
  shape bb = shape b0 /\
  forall r c, cell_at bb r c = cell_at b0 r c \/
    (is_mine (cell_at b0 r c) = false /\
     exists n, cell_at bb r c = set_adjacent n (cell_at b0 r c)).

(** [b'] arises from [b] by revealing unflagged cells, none of them a mine. *)
Definition safe_rel (b b' : Board) : Prop :=
  reveal_rel b b' /\
  forall r c, is_mine (cell_at b r c) = true ->
    is_revealed (cell_at b' r c) = is_revealed (cell_at b r c).

End Game.

(* ================================================================= *)
(** ** Facts about the CSP engine *)

Module CSPFacts.
Import CSP.

Lemma solve_S (s : CSPSolver) (f : nat) (a : Assignment) :
  solve s (S f) a =
    if Nat.eqb (size a) (length (variables s)) then (Ret true, a) else
    match domains s !! select_unassigned_variable s a with
    | None => (Raised, a)
    | Some dom => value_loop s f (select_unassigned_variable s a) dom a
    end.
Proof.
  simpl. destruct (Nat.eqb _ _); [done|].
  destruct (domains s !! _) as [dom|]; [|done].
  generalize (select_unassigned_variable s a) as var. intros var.
  generalize a. induction dom as [|v rest IH]; intros b; [done|].
  simpl. destruct (is_consistent s _) as [[]|]; [|by rewrite IH|done].
  destruct (solve s f _) as [[[]| |] a2]; by rewrite ?IH.
Qed.

(** [select_unassigned_variable] returns the first unbound registered
    variable, or the empty-string fallback when every one is bound. *)
Lemma select_spec (s : CSPSolver) (a : Assignment) :
  let v := select_unassigned_variable s a in
  (a !! v = None /\ v ∈ variables s /\
     exists i : nat, variables s !! i = Some v /\
       forall (j : nat) y, variables s !! j = Some y -> (j < i)%nat -> a !! y <> None) \/
  (v = "" /\ forall x, x ∈ variables s -> a !! x <> None).
Proof.
  unfold select_unassigned_variable.
  destruct (list_find _ _) as [[i v]|] eqn:E.
  - apply list_find_Some in E as (Hi & Hv & Hfirst). left.
    split; [done|]. split; [by eapply list_elem_of_lookup_2|].
    exists i. split; [done|]. intros j y Hj Hlt. by apply (Hfirst j y).
  - apply list_find_None in E. right. split; [done|].
    intros x Hx. rewrite Forall_forall in E. by apply E.
Qed.

Lemma select_unbound_or_blank (s : CSPSolver) (a : Assignment) :
  a !! select_unassigned_variable s a = None \/ select_unassigned_variable s a = "".
Proof. destruct (select_spec s a) as [[? _]|[? _]]; auto. Qed.

Lemma agree_but_blank_refl (a : Assignment) : agree_but_blank a a.
Proof. by intros k _. Qed.

Lemma agree_but_blank_undo (a b a2 : Assignment) (var : Var) (v : Z) :
  (a !! var = None \/ var = "") ->
  agree_but_blank a b ->
  agree_but_blank (<[var := v]> b) a2 ->
  agree_but_blank a (delete var a2).
Proof.
  intros Hvar Hab Hb2 k Hk. rewrite lookup_delete.
  case_decide as Heq.
  - subst k. destruct Hvar as [Hvar|Hvar]; [done|].
    subst var. destruct Hk as [Hk|Hk]; [done|]. by rewrite Hk.
  - destruct (decide (k = "")) as [->|Hne].
    + destruct Hk as [Hk|Hk]; [done|].
      rewrite Hb2; [|right; rewrite lookup_insert_ne by done; rewrite Hab; auto].
      rewrite lookup_insert_ne by done. apply Hab. auto.
    + rewrite Hb2 by auto. rewrite lookup_insert_ne by done. apply Hab. auto.
Qed.

Lemma value_loop_fail_agree (s : CSPSolver) (f : nat) (var : Var) (a : Assignment) :
  (forall a0 a0', solve s f a0 = (Ret false, a0') -> agree_but_blank a0 a0') ->
  (a !! var = None \/ var = "") ->
  forall dom b a', agree_but_blank a b ->
  value_loop s f var dom b = (Ret false, a') -> agree_but_blank a a'.
Proof.
  intros IH Hvar dom. induction dom as [|v rest IHd]; intros b a' Hb Hs; simpl in Hs.
  - by injection Hs as <-.
  - destruct (is_consistent s _) as [[]|] eqn:Hc; [|eapply IHd; [|exact Hs]|done].
    + destruct (solve s f _) as [[[]| |] a2] eqn:Hsub; try done.
      eapply IHd; [|exact Hs]. apply IH in Hsub. eauto using agree_but_blank_undo.
    + eauto using agree_but_blank_undo, agree_but_blank_refl.
Qed.

(** A failing [solve] undoes every binding it made, except possibly at the
    empty-string key when the caller's map binds it. *)
Lemma solve_fail_agree (s : CSPSolver) (f : nat) (a a' : Assignment) :
  solve s f a = (Ret false, a') -> agree_but_blank a a'.
Proof.
  revert a a'. induction f as [|f IH]; intros a a' Hs; [done|].
  rewrite solve_S in Hs. destruct (Nat.eqb _ _); [done|].
  destruct (domains s !! _) as [dom|]; [|done].
  eapply value_loop_fail_agree; [exact IH|apply select_unbound_or_blank|
    apply agree_but_blank_refl|exact Hs].
Qed.

(** *** Well-formed instances: distinct variables, and an assignment that
    binds registered variables only. *)

Section WellFormed.
Context (s : CSPSolver).
Hypothesis Hnodup : NoDup (variables s).

Lemma wf_dom_subseteq (a : Assignment) :
  wf s a -> dom a ⊆ (list_to_set (variables s) : gset string).
Proof.
  intros Hwf k Hk. rewrite elem_of_dom in Hk. apply elem_of_list_to_set. by apply Hwf.
Qed.

Lemma wf_size_le (a : Assignment) : wf s a -> (size a <= length (variables s))%nat.
Proof.
  intros Hwf. rewrite <- size_dom, <- (size_list_to_set (C:=gset string)) by done.
  by apply subseteq_size, wf_dom_subseteq.
Qed.

Lemma wf_size_eq_bound (a : Assignment) :
  wf s a -> size a = length (variables s) ->
  forall x, x ∈ variables s -> is_Some (a !! x).
Proof.
  intros Hwf Hsz x Hx. destruct (a !! x) eqn:Ex; [by eexists|exfalso].
  assert (Hlt : (size (dom a) < size (list_to_set (variables s) : gset string))%nat).
  { apply subset_size. split; [by apply wf_dom_subseteq|].
    intros Hsub. assert (Hxd : x ∈ dom a).
    { apply Hsub. by apply elem_of_list_to_set. }
    rewrite elem_of_dom, Ex in Hxd. by destruct Hxd. }
  rewrite size_dom, size_list_to_set in Hlt by done. lia.
Qed.

Lemma all_bound_size (a : Assignment) :
  wf s a -> (forall x, x ∈ variables s -> a !! x <> None) ->
  size a = length (variables s).
Proof.
  intros Hwf Hall. apply Nat.le_antisymm; [by apply wf_size_le|].
  rewrite <- size_dom, <- (size_list_to_set (C:=gset string)) by done.
  apply subseteq_size. intros x Hx. apply elem_of_list_to_set in Hx.
  apply elem_of_dom. specialize (Hall x Hx). destruct (a !! x); [by eexists|done].
Qed.

Lemma select_wf (a : Assignment) :
  wf s a -> size a <> length (variables s) ->
  a !! select_unassigned_variable s a = None /\
  select_unassigned_variable s a ∈ variables s.
Proof.
  intros Hwf Hsz. destruct (select_spec s a) as [(H1 & H2 & _)|(_ & Hall)]; [done|].
  exfalso. by apply Hsz, all_bound_size.
Qed.

Lemma wf_insert (a : Assignment) (x : Var) (v : Z) :
  wf s a -> x ∈ variables s -> wf s (<[x := v]> a).
Proof.
  intros Hwf Hx k Hk. rewrite lookup_insert in Hk. case_decide; [by subst|by apply Hwf].
Qed.

Lemma valid_insert (a : Assignment) (x : Var) (v : Z) (d : Domain) :
  valid s a -> domains s !! x = Some d -> v ∈ d -> valid s (<[x := v]> a).
Proof.
  intros Hval Hd Hv k w Hk. rewrite lookup_insert in Hk.
  case_decide; [subst; injection Hk as <-; eauto|by apply Hval].
Qed.

(** On a well-formed assignment a failing [solve] restores it exactly. *)
Lemma solve_fail_exact (f : nat) (a a' : Assignment) :
  wf s a -> solve s f a = (Ret false, a') -> a' = a.
Proof.
  revert a a'. induction f as [|f IH]; intros a a' Hwf Hs; [done|].
  rewrite solve_S in Hs. destruct (Nat.eqb _ _) eqn:Hsz; [done|].
  apply Nat.eqb_neq in Hsz. destruct (select_wf a Hwf Hsz) as [Hun Hin].
  destruct (domains s !! _) as [dom|]; [|done].
  revert Hs Hun Hin. generalize (select_unassigned_variable s a) as var.
  intros var Hs Hun Hin. revert a' Hs.
  induction dom as [|v rest IHd]; intros a' Hs; simpl in Hs.
  - by injection Hs as <-.
  - destruct (is_consistent s _) as [[]|]; [|rewrite delete_insert_id in Hs by done; by apply IHd|done].
    destruct (solve s f _) as [[[]| |] a2] eqn:Hsub; try done.
    apply IH in Hsub; [|by apply wf_insert]. subst a2.
    rewrite delete_insert_id in Hs by done. by apply IHd.
Qed.

Lemma check_all_true (cs : list Constraint) (a : Assignment) :
  check_all cs a = Some true <-> forall c, c ∈ cs -> c a = Some true.
Proof.
  induction cs as [|c cs IH]; simpl.
  - split; [intros _ c Hc; by apply elem_of_nil in Hc|done].
  - destruct (c a) as [[]|] eqn:Ec.
    + rewrite IH. split.
      * intros H c' Hc'. apply elem_of_cons in Hc' as [->|Hc']; auto.
      * intros H c' Hc'. apply H. by right.
    + split; [done|]. intros H. rewrite H in Ec; [done|by left].
    + split; [done|]. intros H. rewrite H in Ec; [done|by left].
Qed.

Lemma check_all_total (cs : list Constraint) (a : Assignment) :
  (forall c, c ∈ cs -> c a <> None) -> check_all cs a <> None.
Proof.
  induction cs as [|c cs IH]; simpl; [done|]. intros H.
  destruct (c a) as [[]|] eqn:Ec; [|done|].
  - apply IH. intros c' Hc'. apply H. by right.
  - exfalso. by apply (H c); [left|].
Qed.

Section Total.
Hypothesis Hdoms : forall x, x ∈ variables s -> is_Some (domains s !! x).
Hypothesis Htotal : forall c a, c ∈ constraints s -> c a <> None.

(** With enough fuel [solve] neither raises nor runs out of fuel. *)
Lemma solve_ret (f : nat) (a : Assignment) :
  wf s a -> (length (variables s) - size a < f)%nat ->
  exists b a', solve s f a = (Ret b, a').
Proof.
  revert a. induction f as [|f IH]; intros a Hwf Hf; [lia|].
  rewrite solve_S. destruct (Nat.eqb _ _) eqn:Hsz; [eauto|].
  apply Nat.eqb_neq in Hsz. destruct (select_wf a Hwf Hsz) as [Hun Hin].
  pose proof (wf_size_le a Hwf) as Hle.
  destruct (Hdoms _ Hin) as [dom Hdom]. rewrite Hdom. clear Hdom.
  revert Hun Hin. generalize (select_unassigned_variable s a) as var. intros var Hun Hin.
  induction dom as [|v rest IHd]; simpl; [eauto|].
  assert (Hc : is_consistent s (<[var:=v]> a) <> None) by
    (apply check_all_total; intros c Hc; by apply Htotal).
  destruct (is_consistent s _) as [[]|]; [|rewrite delete_insert_id by done; exact IHd|done].
  destruct (IH (<[var:=v]> a)) as (b & a2 & Hsub).
  { by apply wf_insert. }
  { rewrite map_size_insert_None by done. lia. }
  rewrite Hsub. destruct b; [eauto|].
  apply solve_fail_exact in Hsub; [|by apply wf_insert]. subst a2.
  rewrite delete_insert_id by done. exact IHd.
Qed.
End Total.

(** What a successful [solve] leaves behind. *)
Lemma solve_true_props (f : nat) (a a' : Assignment) :
  wf s a -> valid s a -> solve s f a = (Ret true, a') ->
  size a' = length (variables s) /\ wf s a' /\ valid s a' /\
  (a' = a \/ is_consistent s a' = Some true).
Proof.
  revert a a'. induction f as [|f IH]; intros a a' Hwf Hval Hs; [done|].
  rewrite solve_S in Hs. destruct (Nat.eqb _ _) eqn:Hsz.
  { injection Hs as <-. apply Nat.eqb_eq in Hsz. auto. }
  apply Nat.eqb_neq in Hsz. destruct (select_wf a Hwf Hsz) as [Hun Hin].
  destruct (domains s !! _) as [dom|] eqn:Hdom; [|done].
  revert Hs Hun Hin Hdom. generalize (select_unassigned_variable s a) as var.
  intros var Hs Hun Hin Hdom.
  cut (forall vals a', (forall w, w ∈ vals -> w ∈ dom) ->
         value_loop s f var vals a = (Ret true, a') ->
         size a' = length (variables s) /\ wf s a' /\ valid s a' /\
         (a' = a \/ is_consistent s a' = Some true)).
  { intros Hloop. by apply (Hloop dom a'). }
  clear a' Hs. intros vals.
  induction vals as [|v rest IHd]; intros a' Hvals Hs; simpl in Hs; [done|].
  assert (Hv : v ∈ dom) by (apply Hvals; left).
  assert (Hrest : forall w, w ∈ rest -> w ∈ dom) by (intros w Hw; apply Hvals; by right).
  destruct (is_consistent s _) as [[]|] eqn:Hc;
    [|rewrite delete_insert_id in Hs by done; by apply IHd|done].
  destruct (solve s f _) as [[[]| |] a2] eqn:Hs2; try done.
  - injection Hs as <-.
    apply IH in Hs2 as (H1 & H2 & H3 & H4);
      [|by apply wf_insert|by eapply valid_insert].
    split_and!; auto. right. destruct H4 as [->|]; done.
  - apply solve_fail_exact in Hs2; [|by apply wf_insert]. subst a2.
    rewrite delete_insert_id in Hs by done. by apply IHd.
Qed.

Section Success.
Hypothesis Htotal : forall c a, c ∈ constraints s -> c a <> None.
Hypothesis Htol : partial_tolerant s.
Context (sigma : Assignment).
Hypothesis Hcomp : complete s sigma.
Hypothesis Hsat : satisfies s sigma.

Lemma doms_of_complete (x : Var) : x ∈ variables s -> is_Some (domains s !! x).
Proof.
  intros Hx. destruct Hcomp as [Hk Hv]. apply Hk in Hx as [w Hw].
  destruct (Hv _ _ Hw) as (d & Hd & _). by eexists.
Qed.

Lemma consistent_below (b : Assignment) :
  b ⊆ sigma -> is_consistent s b = Some true.
Proof.
  intros Hb. apply check_all_true. intros c Hc. eapply Htol; eauto.
Qed.

(** Depth-first search below a part of a solution finds a solution. *)
Lemma solve_succeeds (f : nat) (a : Assignment) :
  wf s a -> a ⊆ sigma -> (length (variables s) - size a < f)%nat ->
  exists a', solve s f a = (Ret true, a').
Proof.
  revert a. induction f as [|f IH]; intros a Hwf Hsub Hf; [lia|].
  rewrite solve_S. destruct (Nat.eqb _ _) eqn:Hsz; [eauto|].
  apply Nat.eqb_neq in Hsz. destruct (select_wf a Hwf Hsz) as [Hun Hin].
  pose proof (wf_size_le a Hwf) as Hle.
  destruct Hcomp as [Hk Hv]. destruct (proj2 (Hk _) Hin) as [w Hw].
  destruct (Hv _ _ Hw) as (dom & Hdom & Hwd). rewrite Hdom. clear Hdom.
  revert Hun Hin Hw. generalize (select_unassigned_variable s a) as var.
  intros var Hun Hin Hw.
  assert (Hfuel : (length (variables s) - size (<[var:=w]> a) < f)%nat)
    by (rewrite map_size_insert_None by done; lia).
  induction dom as [|v rest IHd]; [by apply elem_of_nil in Hwd|]. simpl.
  destruct (decide (v = w)) as [->|Hne].
  - rewrite consistent_below by (by apply insert_subseteq_l).
    destruct (IH (<[var:=w]> a)) as [a2 Hs2];
      [by apply wf_insert|by apply insert_subseteq_l|done|].
    rewrite Hs2. eauto.
  - apply elem_of_cons in Hwd as [Hwd|Hwd]; [done|].
    assert (Hc : is_consistent s (<[var:=v]> a) <> None) by
      (apply check_all_total; intros c Hc; by apply Htotal).
    destruct (is_consistent s _) as [[]|]; [|rewrite delete_insert_id by done; by apply IHd|done].
    destruct (solve_ret doms_of_complete Htotal f (<[var:=v]> a)) as (b & a2 & Hs2).
    { by apply wf_insert. }
    { rewrite map_size_insert_None by done. lia. }
    rewrite Hs2. destruct b; [eauto|].
    apply solve_fail_exact in Hs2; [|by apply wf_insert]. subst a2.
    rewrite delete_insert_id by done. by apply IHd.
Qed.
End Success.

End WellFormed.

(** The partial-tolerant constraints meet the engine's contract. *)
Lemma neq_tolerant_tolerant (x y : Var) (b sigma : Assignment) :
  b ⊆ sigma -> neq_tolerant x y sigma = Some true -> neq_tolerant x y b = Some true.
Proof.
  unfold neq_tolerant. intros Hsub Hs.
  destruct (b !! x) as [u|] eqn:Ex, (b !! y) as [v|] eqn:Ey; try done.
  by rewrite (lookup_weaken b sigma x u), (lookup_weaken b sigma y v) in Hs.
Qed.

Lemma eq_tolerant_tolerant (x y : Var) (b sigma : Assignment) :
  b ⊆ sigma -> eq_tolerant x y sigma = Some true -> eq_tolerant x y b = Some true.
Proof.
  unfold eq_tolerant. intros Hsub Hs.
  destruct (b !! x) as [u|] eqn:Ex, (b !! y) as [v|] eqn:Ey; try done.
  by rewrite (lookup_weaken b sigma x u), (lookup_weaken b sigma y v) in Hs.
Qed.

Ltac constraint_cases H :=
  cbn [constraints add_constraint example_solver0 tolerant_solver
       tolerant_solver_eq_BC app] in H;
  repeat (apply elem_of_cons in H as [->|H]); [..|by apply elem_of_nil in H].

Lemma tolerant_solver_contract :
  NoDup (variables tolerant_solver) /\
  (forall c a, c ∈ constraints tolerant_solver -> c a <> None) /\
  partial_tolerant tolerant_solver.
Proof.
  split_and!.
  - cbn. repeat constructor; set_solver.
  - intros c a Hc. constraint_cases Hc; unfold neq_tolerant;
      repeat case_match; done.
  - intros c b sigma Hc. constraint_cases Hc; apply neq_tolerant_tolerant.
Qed.

Lemma example_permutation_solution :
  complete tolerant_solver example_permutation /\
  satisfies tolerant_solver example_permutation.
Proof.
  split; [split|].
  - intros k. unfold example_permutation. cbn [variables tolerant_solver
      add_constraint example_solver0].
    rewrite !lookup_insert, lookup_empty, !elem_of_cons, elem_of_nil.
    repeat case_decide; subst; naive_solver.
  - intros k v. unfold example_permutation. cbn [domains tolerant_solver
      add_constraint example_solver0].
    rewrite !lookup_insert, lookup_empty.
    repeat case_decide; subst; intros Hk; simplify_eq;
      (eexists; split; [done|set_solver]).
  - intros c Hc. constraint_cases Hc; reflexivity.
Qed.

(** ** Claim C1 *)

(** Claim C1, as stated, fails: the example program's own kind of
    constraint ([at(A) == at(B)], which throws on a partial assignment) makes
    a satisfiable instance raise, and a variable registered twice makes a
    satisfiable instance raise as well. *)
Lemma solve_satisfiable_counterexample :
  complete throwing_solver (<["A" := 1]> {["B" := 1]}) /\
  satisfies throwing_solver (<["A" := 1]> {["B" := 1]}) /\
  (forall f, fst (solve throwing_solver f ∅) <> Ret true) /\
  (complete duplicate_solver {["A" := 1]} /\ satisfies duplicate_solver {["A" := 1]}) /\
  (forall f, fst (solve duplicate_solver f ∅) <> Ret true).
Proof.
  split_and!.
  - split.
    + intros k. cbn [variables throwing_solver].
      rewrite lookup_insert, lookup_singleton, !elem_of_cons, elem_of_nil.
      repeat case_decide; subst; naive_solver.
    + intros k v. cbn [domains throwing_solver].
      rewrite !lookup_insert, lookup_singleton, lookup_empty.
      repeat case_decide; subst; intros Hk; simplify_eq;
        (eexists; split; [done|set_solver]).
  - intros c Hc. cbn in Hc. apply elem_of_cons in Hc as [->|Hc];
      [reflexivity|by apply elem_of_nil in Hc].
  - intros [|f]; [done|]. cbn. done.
  - split.
    + intros k. cbn [variables duplicate_solver].
      rewrite lookup_singleton, !elem_of_cons, elem_of_nil.
      case_decide; subst; naive_solver.
    + intros k v. cbn [domains duplicate_solver].
      rewrite lookup_insert, lookup_singleton, lookup_empty.
      repeat case_decide; subst; intros Hk; simplify_eq;
        (eexists; split; [done|set_solver]).
  - intros c Hc. by apply elem_of_nil in Hc.
  - intros [|[|f]]; done.
Qed.

(** Claim C1 (amended): for every instance whose variables are registered
    without repetition and whose constraints never throw and are
    partial-tolerant (the contract of spec 4.3), if some complete assignment
    satisfies every constraint then [solve] started from the empty assignment
    (with fuel exceeding the number of variables, so it terminates) succeeds,
    and the assignment it leaves is complete (one value per registered
    variable, drawn from its domain) and satisfies every constraint. *)
Theorem solve_finds_solution (s : CSPSolver) (f : nat) :
  NoDup (variables s) ->
  (forall c a, c ∈ constraints s -> c a <> None) ->
  partial_tolerant s ->
  (exists sigma, complete s sigma /\ satisfies s sigma) ->
  (length (variables s) < f)%nat ->
  exists a', solve s f ∅ = (Ret true, a') /\ complete s a' /\ satisfies s a'.
Proof.
  intros Hnd Htot Htol (sigma & Hcomp & Hsat) Hf.
  assert (Hwf0 : wf s ∅) by (intros k Hk; rewrite lookup_empty in Hk; by destruct Hk).
  assert (Hval0 : valid s ∅) by (intros k v Hk; by rewrite lookup_empty in Hk).
  destruct (solve_succeeds s Hnd Htot Htol sigma Hcomp Hsat f ∅) as [a' Hs];
    [done|apply map_empty_subseteq|rewrite map_size_empty; lia|].
  exists a'. split; [done|].
  destruct (solve_true_props s Hnd f ∅ a' Hwf0 Hval0 Hs) as (Hsz & Hwf & Hval & Hcons).
  split; [split|].
  - intros k. split; [apply Hwf|]. by apply wf_size_eq_bound.
  - exact Hval.
  - destruct Hcons as [->|Hcons].
    + intros c Hc. eapply Htol; [done|apply map_empty_subseteq|by apply Hsat].
    + exact (proj1 (check_all_true _ _) Hcons).
Qed.

Lemma solve_finds_solution_witness :
  exists a', solve tolerant_solver 4 ∅ = (Ret true, a') /\
    complete tolerant_solver a' /\ satisfies tolerant_solver a'.
Proof.
  destruct tolerant_solver_contract as (Hnd & Htot & Htol).
  apply (solve_finds_solution tolerant_solver 4 Hnd Htot Htol).
  - exists example_permutation. apply example_permutation_solution.
  - cbn. lia.
Defined.

Lemma agree_but_blank_eq (a b : Assignment) :
  agree_but_blank a b -> a !! "" = None -> b = a.
Proof. intros H Hb. apply map_eq. intros k. apply H. by right. Qed.

(** ** Claim C2 *)

(** Claim C2: the code does not restore the caller's map on this failure.
    The caller's map binds the only registered variable and also the key "".
    So no variable is left unbound and [select_unassigned_variable] reaches its
    fallback [return ""; // Should never reach here].  [solve] then binds ""
    over the caller's value, the check fails, and [assignment.erase(var)]
    removes the caller's binding of "".  [solve] returns failure with a map
    that differs from its input. *)
Lemma solve_failure_counterexample :
  solve blank_domain_solver 3 (<["A" := 1]> {["" := 5]}) = (Ret false, {["A" := 1]}) /\
  {["A" := 1]} <> (<["A" := 1]> {["" := 5]} : Assignment).
Proof.
  split; [reflexivity|].
  intros H. apply (f_equal (lookup "")) in H. by vm_compute in H.
Qed.

(** ** Claim C3 *)

(** Claim C3 fails on the code.  Every constraint of the example program reads
    both of its variables with [assignment.at], which throws
    [std::out_of_range] on the first consistency check, made when only A is
    bound: [solve] raises with the caller's map left holding A = 1, for the
    example and for each variant with a constraint replaced by A == B. *)
Theorem example_program_raises (f : nat) :
  solve example_solver (S f) ∅ = (Raised, {["A" := 1]}) /\
  solve example_solver_eq_AB (S f) ∅ = (Raised, {["A" := 1]}) /\
  solve example_solver_eq_BC (S f) ∅ = (Raised, {["A" := 1]}) /\
  solve example_solver_eq_AC (S f) ∅ = (Raised, {["A" := 1]}).
Proof. split_and!; reflexivity. Qed.

(** Written against the engine's contract, the same constraints give the
    behaviour of scenario C: a permutation of {1,2,3}, and a failure that
    leaves the empty input untouched when B != C is replaced by A == B. *)
Example tolerant_example_solves :
  solve tolerant_solver 4 ∅ = (Ret true, example_permutation).
Proof. reflexivity. Qed.

Example tolerant_example_eq_BC_fails :
  solve tolerant_solver_eq_BC 4 ∅ = (Ret false, ∅).
Proof. reflexivity. Qed.

(** ** Claim C4 *)

Lemma solve_true_size (s : CSPSolver) (f : nat) (a a' : Assignment) :
  solve s f a = (Ret true, a') -> size a' = length (variables s).
Proof.
  revert a a'. induction f as [|f IH]; intros a a' Hs; [done|].
  rewrite solve_S in Hs. destruct (Nat.eqb _ _) eqn:Hsz.
  { injection Hs as <-. by apply Nat.eqb_eq. }
  destruct (domains s !! _) as [dom|]; [|done].
  revert Hs. generalize (select_unassigned_variable s a) as var. intros var.
  generalize a. induction dom as [|v rest IHd]; intros b Hs; simpl in Hs; [done|].
  destruct (is_consistent s _) as [[]|]; [|by eapply IHd|done].
  destruct (solve s f _) as [[[]| |] a2] eqn:Hs2; try done.
  - injection Hs as <-. by eapply IH.
  - by eapply IHd.
Qed.

Lemma value_loop_fail_tried (s : CSPSolver) (f : nat) (x : Var) (a : Assignment) :
  a !! "" = None -> a !! x = None ->
  forall vals a', value_loop s f x vals a = (Ret false, a') ->
  forall v, v ∈ vals -> value_tried s f a x v.
Proof.
  intros Hb Hx vals. induction vals as [|w rest IHd]; intros a' Hs v Hv;
    [by apply elem_of_nil in Hv|]. simpl in Hs.
  destruct (is_consistent s (<[x:=w]> a)) as [[]|] eqn:Hc; [| |done].
  - destruct (solve s f _) as [[[]| |] a2] eqn:Hs2; try done.
    assert (Hrest : delete x a2 = a).
    { apply agree_but_blank_eq; [|done]. eapply agree_but_blank_undo;
        [by left|apply agree_but_blank_refl|by eapply solve_fail_agree]. }
    rewrite Hrest in Hs. apply elem_of_cons in Hv as [->|Hv].
    + right. by rewrite Hs2.
    + by eapply IHd.
  - rewrite delete_insert_id in Hs by done. apply elem_of_cons in Hv as [->|Hv].
    + by left.
    + by eapply IHd.
Qed.

Lemma solve_true_wf (s : CSPSolver) (f : nat) (a a' : Assignment) :
  NoDup (variables s) -> wf s a -> solve s f a = (Ret true, a') -> wf s a'.
Proof.
  intros Hnd. revert a a'. induction f as [|f IH]; intros a a' Hwf Hs; [done|].
  rewrite solve_S in Hs. destruct (Nat.eqb _ _) eqn:Hsz; [by injection Hs as <-|].
  apply Nat.eqb_neq in Hsz. destruct (select_wf s Hnd a Hwf Hsz) as [Hun Hin].
  destruct (domains s !! _) as [dom|]; [|done].
  revert Hs Hun Hin. generalize (select_unassigned_variable s a) as var.
  intros var Hs Hun Hin. revert a' Hs.
  induction dom as [|v rest IHd]; intros a' Hs; simpl in Hs; [done|].
  destruct (is_consistent s _) as [[]|];
    [|rewrite delete_insert_id in Hs by done; by eapply IHd|done].
  destruct (solve s f _) as [[[]| |] a2] eqn:Hs2; try done.
  - injection Hs as <-. eapply IH; [|exact Hs2]. by apply wf_insert.
  - apply solve_fail_exact in Hs2; [|done|by apply wf_insert]. subst a2.
    rewrite delete_insert_id in Hs by done. by eapply IHd.
Qed.

(** Claim C4, as stated, fails: the success test compares sizes only, so an
    input that binds a name outside the registered variables makes [solve]
    report success at once while the registered variable B is unbound. *)
Lemma solve_size_test_counterexample :
  solve two_var_solver 1 (<["A" := 1]> {["X" := 9]}) =
    (Ret true, <["A" := 1]> {["X" := 9]}) /\
  (<["A" := 1]> {["X" := 9]} : Assignment) !! "B" = None /\
  "B" ∈ variables two_var_solver.
Proof. split_and!; [reflexivity|reflexivity|cbn; set_solver]. Qed.

(** Claim C4 (amended): [solve] reports success exactly when it reaches an
    assignment whose size equals the number of registered variables: every
    success leaves such an assignment, and such an assignment is accepted at
    once.  With variables registered without repetition and an input binding
    registered variables only, a success leaves a total assignment.  The
    variable tried is the first unbound one in registration order (the
    empty string when none is unbound), and, when the input does not bind
    the empty string, a failure is reported only after every value of that
    variable's domain was tried, with the input restored. *)
Theorem solve_success_is_size_test (s : CSPSolver) (f : nat) :
  (forall a a', solve s f a = (Ret true, a') -> size a' = length (variables s)) /\
  (forall a, size a = length (variables s) -> solve s (S f) a = (Ret true, a)) /\
  (NoDup (variables s) -> forall a a', wf s a -> solve s f a = (Ret true, a') ->
     forall x, x ∈ variables s -> is_Some (a' !! x)) /\
  (forall a, let v := select_unassigned_variable s a in
     (a !! v = None /\ v ∈ variables s /\
        exists i : nat, variables s !! i = Some v /\
          forall (j : nat) y, variables s !! j = Some y -> (j < i)%nat -> a !! y <> None) \/
     (v = "" /\ forall x, x ∈ variables s -> a !! x <> None)) /\
  (forall a a', a !! "" = None -> solve s (S f) a = (Ret false, a') ->
     size a <> length (variables s) /\ a' = a /\
     exists dom, domains s !! select_unassigned_variable s a = Some dom /\
       forall v, v ∈ dom -> value_tried s f a (select_unassigned_variable s a) v).
Proof.
  split_and!.
  - apply solve_true_size.
  - intros a Hsz. rewrite solve_S. apply Nat.eqb_eq in Hsz. by rewrite Hsz.
  - intros Hnd a a' Hwf Hs. apply wf_size_eq_bound; [done| |].
    + by eapply solve_true_wf.
    + by eapply solve_true_size.
  - apply select_spec.
  - intros a a' Hb Hs.
    assert (Ha' : a' = a) by (eapply agree_but_blank_eq; [by eapply solve_fail_agree|done]).
    rewrite solve_S in Hs. destruct (Nat.eqb _ _) eqn:Hsz; [done|].
    apply Nat.eqb_neq in Hsz. split; [done|]. split; [done|].
    destruct (domains s !! _) as [dom|]; [|done]. exists dom. split; [done|].
    assert (Hun : a !! select_unassigned_variable s a = None).
    { destruct (select_unbound_or_blank s a) as [H|H]; [done|by rewrite H]. }
    by eapply value_loop_fail_tried.
Qed.

Lemma solve_success_is_size_test_witness :
  size (∅ : Assignment) <> length (variables tolerant_solver_eq_BC) /\
  (∅ : Assignment) = ∅ /\
  exists dom, domains tolerant_solver_eq_BC !!
      select_unassigned_variable tolerant_solver_eq_BC ∅ = Some dom /\
    forall v, v ∈ dom ->
      value_tried tolerant_solver_eq_BC 3 ∅ (select_unassigned_variable tolerant_solver_eq_BC ∅) v.
Proof.
  destruct (solve_success_is_size_test tolerant_solver_eq_BC 3) as (_ & _ & _ & _ & H).
  apply (H ∅ ∅); reflexivity.
Defined.

End CSPFacts.

(** * Board operations *)

Module BoardFacts.
Import Board.

Lemma set_revealed_idem x : set_revealed (set_revealed x) = set_revealed x.
Proof. by destruct x. Qed.

Lemma height_shape b b' : shape b' = shape b -> height b' = height b.
Proof.
  unfold height, shape; intros H.
  rewrite <- (length_fmap length b'), <- (length_fmap length b), H; done.
Qed.

Lemma width_shape b b' : shape b' = shape b -> width b' = width b.
Proof.
  destruct b as [|x b], b' as [|y b']; simpl; intros H; try discriminate; [done|].
  injection H as H _; rewrite H; done.
Qed.

Lemma in_bounds_shape b b' r c : shape b' = shape b -> in_bounds b' r c = in_bounds b r c.
Proof. intros H; unfold in_bounds; rewrite (height_shape _ _ H), (width_shape _ _ H); done. Qed.

Lemma rectangular_shape b b' : shape b' = shape b -> rectangular b -> rectangular b'.
Proof.
  unfold rectangular; rewrite !Forall_forall; intros H Hr n Hn.
  rewrite (width_shape _ _ H); apply Hr; rewrite <- H; done.
Qed.

Lemma shape_update g b r c : shape (update_cell g b r c) = shape b.
Proof.
  unfold update_cell; destruct (_ || _); [done|]. unfold shape.
  apply list_eq; intros i; rewrite !list_lookup_fmap.
  destruct (decide (i = Z.to_nat r)) as [->|Hi].
  - rewrite list_lookup_alter_eq; destruct (b !! _); simpl; rewrite ?length_alter; done.
  - rewrite list_lookup_alter_ne by done; done.
Qed.

Lemma cell_at_update_ne g b r c r' c' :
  (r', c') <> (r, c) -> cell_at (update_cell g b r c) r' c' = cell_at b r' c'.
Proof.
  intros Hne; unfold update_cell.
  destruct ((r <? 0) || (c <? 0)) eqn:Hn; [done|].
  apply orb_false_iff in Hn; rewrite !Z.ltb_ge in Hn.
  unfold cell_at; destruct ((r' <? 0) || (c' <? 0)) eqn:Hn'; [done|].
  apply orb_false_iff in Hn'; rewrite !Z.ltb_ge in Hn'.
  destruct (decide (r' = r)) as [->|Hr].
  - rewrite list_lookup_alter_eq; destruct (b !! _) as [row|]; simpl; [|done].
    rewrite list_lookup_alter_ne; [done|]. intros E; apply Hne; f_equal; lia.
  - rewrite list_lookup_alter_ne; [done|]. lia.
Qed.

Lemma cell_at_update_eq g b r c :
  cell_at (update_cell g b r c) r c = g (cell_at b r c) \/
  cell_at (update_cell g b r c) r c = cell_at b r c.
Proof.
  unfold update_cell.
  destruct ((r <? 0) || (c <? 0)) eqn:Hn; [by right|].
  unfold cell_at; rewrite Hn, list_lookup_alter_eq.
  destruct (b !! _) as [row|]; simpl; [|by right].
  rewrite list_lookup_alter_eq; destruct (row !! _); simpl; [by left|by right].
Qed.

Lemma cell_exists b r c :
  rectangular b -> in_bounds b r c = true ->
  exists row x, b !! Z.to_nat r = Some row /\ row !! Z.to_nat c = Some x.
Proof.
  unfold in_bounds, height; intros Hrect Hin.
  rewrite !andb_true_iff, !Z.leb_le, !Z.ltb_lt in Hin.
  destruct (lookup_lt_is_Some_2 b (Z.to_nat r)) as [row Hrow]; [lia|].
  assert (Hw : Z.of_nat (length row) = width b).
  { unfold rectangular in Hrect; rewrite Forall_forall in Hrect.
    apply Hrect; unfold shape; apply list_elem_of_fmap_2.
    by eapply list_elem_of_lookup_2. }
  destruct (lookup_lt_is_Some_2 row (Z.to_nat c)) as [x Hx]; [lia|].
  eauto.
Qed.

Lemma cell_at_update_in g b r c :
  rectangular b -> in_bounds b r c = true ->
  cell_at (update_cell g b r c) r c = g (cell_at b r c).
Proof.
  intros Hrect Hin.
  destruct (cell_exists b r c Hrect Hin) as (row & x & Hrow & Hx).
  unfold in_bounds in Hin; rewrite !andb_true_iff, !Z.leb_le, !Z.ltb_lt in Hin.
  assert (Hn : ((r <? 0) || (c <? 0)) = false)
    by (apply orb_false_iff; rewrite !Z.ltb_ge; lia).
  unfold update_cell, cell_at; rewrite Hn, list_lookup_alter_eq, Hrow; simpl.
  rewrite list_lookup_alter_eq, Hx; done.
Qed.

(** ** Revealing unflagged cells *)

Lemma reveal_rel_refl b : reveal_rel b b.
Proof. split; [done|]. intros; by left. Qed.

Lemma reveal_rel_trans b1 b2 b3 : reveal_rel b1 b2 -> reveal_rel b2 b3 -> reveal_rel b1 b3.
Proof.
  intros [Hs1 H1] [Hs2 H2]; split; [congruence|]. intros r c.
  destruct (H1 r c) as [E1|[F1 E1]]; destruct (H2 r c) as [E2|[F2 E2]].
  - left; congruence.
  - rewrite E1 in F2, E2; right; done.
  - right; split; [done|congruence].
  - right; split; [done|]. rewrite E2, E1, set_revealed_idem; done.
Qed.

Section RevealRel.
Context (b b' : Board) (H : reveal_rel b b').

Lemma rel_mine r c : is_mine (cell_at b' r c) = is_mine (cell_at b r c).
Proof. destruct (proj2 H r c) as [->|[_ ->]]; done. Qed.

Lemma rel_flagged r c : is_flagged (cell_at b' r c) = is_flagged (cell_at b r c).
Proof. destruct (proj2 H r c) as [->|[_ ->]]; done. Qed.

Lemma rel_adjacent r c : adjacent_mines (cell_at b' r c) = adjacent_mines (cell_at b r c).
Proof. destruct (proj2 H r c) as [->|[_ ->]]; done. Qed.

Lemma rel_revealed r c :
  is_revealed (cell_at b r c) = true -> is_revealed (cell_at b' r c) = true.
Proof. destruct (proj2 H r c) as [->|[_ ->]]; done. Qed.

Lemma rel_in_bounds r c : in_bounds b' r c = in_bounds b r c.
Proof. apply in_bounds_shape, H. Qed.

Lemma rel_rectangular : rectangular b -> rectangular b'.
Proof. apply rectangular_shape, H. Qed.

End RevealRel.

Lemma reveal_rel_update b r c :
  is_flagged (cell_at b r c) = false ->
  reveal_rel b (update_cell set_revealed b r c).
Proof.
  intros Hf; split; [apply shape_update|]. intros r' c'.
  destruct (decide ((r', c') = (r, c))) as [Heq|Hne].
  - injection Heq as -> ->.
    destruct (cell_at_update_eq set_revealed b r c) as [E|E]; [right|left]; done.
  - left; apply cell_at_update_ne; done.
Qed.

Lemma cascaded_refl b : cascaded b b.
Proof. intros r c H1 H2; congruence. Qed.

Lemma cascaded_trans b1 b2 b3 :
  reveal_rel b1 b2 -> reveal_rel b2 b3 -> cascaded b1 b2 -> cascaded b2 b3 ->
  cascaded b1 b3.
Proof.
  intros R12 R23 C12 C23 r c Hu Hr Hm Ha i j Hi Hj Hin Hf.
  destruct (is_revealed (cell_at b2 r c)) eqn:E2.
  - eapply (rel_revealed _ _ R23), (C12 r c); done.
  - eapply (C23 r c); try done.
    + rewrite (rel_mine _ _ R12); done.
    + rewrite (rel_adjacent _ _ R12); done.
    + rewrite (rel_in_bounds _ _ R12); done.
    + rewrite (rel_flagged _ _ R12); done.
Qed.

(** ** Counting unrevealed cells *)

Lemma count_cols_mono (P Q : Z -> bool) n :
  (forall c, Q c = true -> P c = true) -> (count_cols Q n <= count_cols P n)%nat.
Proof.
  intros H; induction n as [|n IH]; simpl; [lia|].
  destruct (Q (Z.of_nat n)) eqn:EQ; [rewrite (H _ EQ)|destruct (P _)]; lia.
Qed.

Lemma count_cols_lt (P Q : Z -> bool) n c :
  (forall c, Q c = true -> P c = true) -> 0 <= c < Z.of_nat n ->
  P c = true -> Q c = false -> (count_cols Q n < count_cols P n)%nat.
Proof.
  intros H Hc HP HQ; induction n as [|n IH]; simpl; [lia|].
  destruct (decide (c = Z.of_nat n)) as [->|Hne].
  - rewrite HP, HQ. pose proof (count_cols_mono P Q n H); lia.
  - assert (Hc' : 0 <= c < Z.of_nat n) by lia; specialize (IH Hc').
    destruct (Q (Z.of_nat n)) eqn:EQ; [rewrite (H _ EQ)|destruct (P _)]; lia.
Qed.

Lemma count_cols_le (P : Z -> bool) n : (count_cols P n <= n)%nat.
Proof. induction n; simpl; [|destruct (P _)]; lia. Qed.

Lemma count_cells_mono (P Q : Z -> Z -> bool) sh r0 :
  (forall r c, Q r c = true -> P r c = true) ->
  (count_cells Q sh r0 <= count_cells P sh r0)%nat.
Proof.
  intros H; revert r0; induction sh as [|n sh IH]; intros r0; simpl; [lia|].
  pose proof (count_cols_mono (P r0) (Q r0) n (H r0)); specialize (IH (r0 + 1)); lia.
Qed.

Lemma count_cells_lt (P Q : Z -> Z -> bool) sh r0 i n c :
  (forall r c, Q r c = true -> P r c = true) -> sh !! i = Some n -> 0 <= c < Z.of_nat n ->
  P (r0 + Z.of_nat i) c = true -> Q (r0 + Z.of_nat i) c = false ->
  (count_cells Q sh r0 < count_cells P sh r0)%nat.
Proof.
  intros H; revert r0 i; induction sh as [|m sh IH]; intros r0 i Hi Hc HP HQ; [done|].
  simpl. destruct i as [|i]; simpl in Hi.
  - injection Hi as ->. rewrite Z.add_0_r in HP, HQ.
    pose proof (count_cols_lt (P r0) (Q r0) n c (H r0) Hc HP HQ).
    pose proof (count_cells_mono P Q sh (r0 + 1) H); lia.
  - pose proof (count_cols_mono (P r0) (Q r0) m (H r0)).
    assert (Hlt : (count_cells Q sh (r0 + 1) < count_cells P sh (r0 + 1))%nat).
    { apply (IH (r0 + 1) i Hi Hc);
        replace (r0 + 1 + Z.of_nat i) with (r0 + Z.of_nat (S i)) by lia; done. }
    lia.
Qed.

Lemma count_cells_le (P : Z -> Z -> bool) b r0 :
  (count_cells P (shape b) r0 <= sum_list_with length b)%nat.
Proof.
  revert r0; induction b as [|row b IH]; intros r0; simpl; [lia|].
  pose proof (count_cols_le (P r0) (length row)); specialize (IH (r0 + 1)); lia.
Qed.

Lemma unrevealed_fuel b : (unrevealed b < reveal_fuel b)%nat.
Proof.
  unfold unrevealed, reveal_fuel.
  pose proof (count_cells_le (fun r c => negb (is_revealed (cell_at b r c))) b 0); lia.
Qed.

Lemma unrevealed_rel b b' : reveal_rel b b' -> (unrevealed b' <= unrevealed b)%nat.
Proof.
  intros R; unfold unrevealed; rewrite (proj1 R).
  apply count_cells_mono; intros r c.
  destruct (is_revealed (cell_at b r c)) eqn:E; [|done].
  rewrite (rel_revealed _ _ R r c E); done.
Qed.

Lemma unrevealed_update b r c :
  rectangular b -> in_bounds b r c = true ->
  is_revealed (cell_at b r c) = false -> is_flagged (cell_at b r c) = false ->
  (unrevealed (update_cell set_revealed b r c) < unrevealed b)%nat.
Proof.
  intros Hrect Hin Hr Hf.
  pose proof (reveal_rel_update b r c Hf) as R.
  destruct (cell_exists b r c Hrect Hin) as (row & x & Hrow & Hx).
  pose proof (cell_at_update_in set_revealed b r c Hrect Hin) as E.
  unfold in_bounds in Hin; rewrite !andb_true_iff, !Z.leb_le, !Z.ltb_lt in Hin.
  unfold unrevealed; rewrite (proj1 R).
  apply (count_cells_lt _ _ _ 0 (Z.to_nat r) (length row) c).
  - intros r' c'. destruct (is_revealed (cell_at b r' c')) eqn:E'; [|done].
    rewrite (rel_revealed _ _ R r' c' E'); done.
  - unfold shape; rewrite list_lookup_fmap, Hrow; done.
  - apply lookup_lt_Some in Hx; lia.
  - rewrite Z2Nat.id, Z.add_0_l by lia; rewrite Hr; done.
  - rewrite Z2Nat.id, Z.add_0_l by lia; rewrite E; done.
Qed.

(** ** The loops over the 3x3 block *)

Lemma offsets_complete i j : -1 <= i <= 1 -> -1 <= j <= 1 -> (i, j) ∈ offsets.
Proof.
  intros Hi Hj.
  assert (Hi' : i = -1 \/ i = 0 \/ i = 1) by lia.
  assert (Hj' : j = -1 \/ j = 0 \/ j = 1) by lia.
  destruct Hi' as [ -> | [ -> | -> ] ]; destruct Hj' as [ -> | [ -> | -> ] ];
  unfold offsets; rewrite list_elem_of_In; simpl; intuition.
Qed.

(** A loop whose body reveals unflagged cells, cascades, and reveals its
    target when that is in bounds and unflagged, does all three for the
    whole block. *)
Lemma for_offsets_spec (N : nat) (step : Board -> Z -> Z -> option Board) row col :
  (forall bb r c, rectangular bb -> (unrevealed bb <= N)%nat ->
     exists bb', step bb r c = Some bb' /\ reveal_rel bb bb' /\ cascaded bb bb' /\
       (in_bounds bb r c = true -> is_flagged (cell_at bb r c) = false ->
        is_revealed (cell_at bb' r c) = true)) ->
  forall offs b, rectangular b -> (unrevealed b <= N)%nat ->
  exists b', for_offsets step row col offs b = Some b' /\ reveal_rel b b' /\ cascaded b b' /\
    forall i j, (i, j) ∈ offs -> in_bounds b (row + i) (col + j) = true ->
      is_flagged (cell_at b (row + i) (col + j)) = false ->
      is_revealed (cell_at b' (row + i) (col + j)) = true.
Proof.
  intros Hstep offs; induction offs as [|[i j] offs IH]; intros b Hrect HN; simpl.
  - exists b; split_and!; [done|apply reveal_rel_refl|apply cascaded_refl|].
    intros ?? Hin; by apply elem_of_nil in Hin.
  - destruct (Hstep b (row + i) (col + j) Hrect HN) as (b1 & E1 & R1 & C1 & T1).
    rewrite E1.
    destruct (IH b1) as (b2 & E2 & R2 & C2 & T2).
    { by eapply rel_rectangular. }
    { pose proof (unrevealed_rel _ _ R1); lia. }
    exists b2; split_and!; [done|by eapply reveal_rel_trans|by eapply cascaded_trans|].
    intros i' j' Hij Hin Hf. apply elem_of_cons in Hij as [Hij|Hij].
    + injection Hij as -> ->. eapply rel_revealed; [exact R2|apply T1; done].
    + apply T2; [done|rewrite (rel_in_bounds _ _ R1); done|rewrite (rel_flagged _ _ R1); done].
Qed.

(** The cascade condition of a call that revealed [(r, c)] first. *)
Lemma cascaded_first b r c b' :
  is_flagged (cell_at b r c) = false ->
  reveal_rel (update_cell set_revealed b r c) b' ->
  cascaded (update_cell set_revealed b r c) b' ->
  (is_mine (cell_at b r c) = false -> adjacent_mines (cell_at b r c) = 0 ->
   forall i j, -1 <= i <= 1 -> -1 <= j <= 1 -> in_bounds b (r + i) (c + j) = true ->
   is_flagged (cell_at b (r + i) (c + j)) = false ->
   is_revealed (cell_at b' (r + i) (c + j)) = true) ->
  cascaded b b'.
Proof.
  intros Hf R C Hrc r' c' Hu Hr Hm Ha i j Hi Hj Hin Hf'.
  pose proof (reveal_rel_update b r c Hf) as R1.
  destruct (decide ((r', c') = (r, c))) as [Heq|Hne].
  - injection Heq as -> ->. apply Hrc; done.
  - rewrite <- (cell_at_update_ne set_revealed b r c) in Hu, Hm, Ha by done.
    apply (C r' c'); try done.
    + rewrite (rel_in_bounds _ _ R1); done.
    + rewrite (rel_flagged _ _ R1); done.
Qed.

Lemma guard_false_in_bounds b r c :
  ((r <? 0) || (height b <=? r) || (c <? 0) || (width b <=? c)) = false ->
  in_bounds b r c = true.
Proof.
  rewrite !orb_false_iff, !Z.ltb_ge, !Z.leb_gt; intros H.
  unfold in_bounds; rewrite !andb_true_iff, !Z.leb_le, !Z.ltb_lt; lia.
Qed.

Lemma guard_true_cases b r c :
  ((r <? 0) || (height b <=? r) || (c <? 0) || (width b <=? c)) = true ->
  in_bounds b r c = false.
Proof.
  rewrite !orb_true_iff, !Z.ltb_lt, !Z.leb_le; intros H.
  unfold in_bounds; apply not_true_iff_false.
  rewrite !andb_true_iff, !Z.leb_le, !Z.ltb_lt; lia.
Qed.

(** ** The specification of [reveal_cell] *)

(** On a rectangular board, a call with more fuel than unrevealed cells
    finishes; it reveals unflagged cells only, every non-mine zero-count cell
    it reveals has its in-bounds unflagged neighbours revealed, and its
    target is revealed when in bounds and unflagged. *)
Lemma reveal_cell_spec f : forall b r c, rectangular b -> (unrevealed b < f)%nat ->
  exists res b', reveal_cell f b r c = Some (res, b') /\ reveal_rel b b' /\ cascaded b b' /\
    (in_bounds b r c = true -> is_flagged (cell_at b r c) = false ->
     is_revealed (cell_at b' r c) = true).
Proof.
  induction f as [|f IH]; intros b r c Hrect Hlt; [lia|].
  cbn [reveal_cell].
  destruct ((r <? 0) || (height b <=? r) || (c <? 0) || (width b <=? c)) eqn:Hg.
  { exists true, b; split_and!; [done|apply reveal_rel_refl|apply cascaded_refl|].
    intros Hin; apply guard_true_cases in Hg; congruence. }
  apply guard_false_in_bounds in Hg as Hin; cbn [orb].
  destruct (is_revealed (cell_at b r c)) eqn:Hrev; cbn [orb].
  { exists true, b; split_and!; [done|apply reveal_rel_refl|apply cascaded_refl|done]. }
  destruct (is_flagged (cell_at b r c)) eqn:Hfl.
  { exists true, b; split_and!; [done|apply reveal_rel_refl|apply cascaded_refl|congruence]. }
  pose proof (reveal_rel_update b r c Hfl) as R1.
  pose proof (cell_at_update_in set_revealed b r c Hrect Hin) as E1.
  pose proof (unrevealed_update b r c Hrect Hin Hrev Hfl) as Hlt1.
  set (b1 := update_cell set_revealed b r c) in *.
  assert (Hrect1 : rectangular b1) by (by eapply rel_rectangular).
  destruct (is_mine (cell_at b1 r c)) eqn:Hm.
  { exists false, b1; split_and!; [done|done| |rewrite E1; done].
    apply (cascaded_first b r c b1 Hfl (reveal_rel_refl _) (cascaded_refl _)).
    rewrite E1 in Hm; simpl in Hm; congruence. }
  assert (Hm0 : is_mine (cell_at b r c) = false) by (rewrite E1 in Hm; done).
  (* the chord loop *)
  destruct (if Z.eqb (count_flagged_neighbors b1 r c) (adjacent_mines (cell_at b1 r c))
            then for_offsets (chord_step (reveal_cell f)) r c offsets b1 else Some b1)
    as [b2|] eqn:E2; cycle 1.
  { exfalso; destruct (Z.eqb _ _) in E2; [|done].
    destruct (for_offsets_spec (unrevealed b1) (chord_step (reveal_cell f)) r c)
      with (offs := offsets) (b := b1) as (? & E & _); [|done|done|congruence].
    intros bb r' c' Hrb HN; unfold chord_step.
    destruct (in_bounds bb r' c' && negb (is_flagged (cell_at bb r' c'))) eqn:Hcb.
    - destruct (IH bb r' c' Hrb) as (res & bb' & Eb & Rb & Cb & Tb); [lia|].
      rewrite Eb; exists bb'; done.
    - exists bb; split_and!; [done|apply reveal_rel_refl|apply cascaded_refl|].
      intros Hi Hf; rewrite Hi, Hf in Hcb; done. }
  assert (R2 : reveal_rel b1 b2 /\ cascaded b1 b2).
  { destruct (Z.eqb _ _) in E2; [|injection E2 as <-; split; [apply reveal_rel_refl|apply cascaded_refl]].
    destruct (for_offsets_spec (unrevealed b1) (chord_step (reveal_cell f)) r c)
      with (offs := offsets) (b := b1) as (b2' & E & R & C & _); [|done|done|].
    - intros bb r' c' Hrb HN; unfold chord_step.
      destruct (in_bounds bb r' c' && negb (is_flagged (cell_at bb r' c'))) eqn:Hcb.
      + destruct (IH bb r' c' Hrb) as (res & bb' & Eb & Rb & Cb & Tb); [lia|].
        rewrite Eb; exists bb'; done.
      + exists bb; split_and!; [done|apply reveal_rel_refl|apply cascaded_refl|].
        intros Hi Hf; rewrite Hi, Hf in Hcb; done.
    - rewrite E in E2; injection E2 as <-; done. }
  destruct R2 as [R2 C2].
  assert (Hlt2 : (unrevealed b2 < f)%nat) by (pose proof (unrevealed_rel _ _ R2); lia).
  assert (Hrect2 : rectangular b2) by (by eapply rel_rectangular).
  destruct (Z.eqb (adjacent_mines (cell_at b2 r c)) 0) eqn:Hz.
  - (* the zero-count loop *)
    destruct (for_offsets_spec (unrevealed b2) (cascade_step (reveal_cell f)) r c)
      with (offs := offsets) (b := b2) as (b3 & E3 & R3 & C3 & T3); [|done|done|].
    { intros bb r' c' Hrb HN; unfold cascade_step.
      destruct (IH bb r' c' Hrb) as (res & bb' & Eb & Rb & Cb & Tb); [lia|].
      rewrite Eb; exists bb'; done. }
    rewrite E3; simpl. exists true, b3; split_and!; [done| | |].
    + eapply reveal_rel_trans; [exact R1|]; eapply reveal_rel_trans; done.
    + apply (cascaded_first b r c b3 Hfl); [eapply reveal_rel_trans; done|eapply cascaded_trans; done|].
      intros _ _ i j Hi Hj Hin' Hf'. apply T3; [by apply offsets_complete| |].
      * rewrite (rel_in_bounds _ _ R2), (rel_in_bounds _ _ R1); done.
      * rewrite (rel_flagged _ _ R2), (rel_flagged _ _ R1); done.
    + intros _ _. apply (rel_revealed _ _ R3), (rel_revealed _ _ R2); rewrite E1; done.
  - exists true, b2; split_and!; [done|eapply reveal_rel_trans; done| |].
    + apply (cascaded_first b r c b2 Hfl R2 C2).
      intros _ Ha. rewrite (rel_adjacent _ _ R2), E1 in Hz; simpl in Hz; rewrite Ha in Hz; done.
    + intros _ _. apply (rel_revealed _ _ R2); rewrite E1; done.
Qed.

(** ** Flags and the other operations *)

Lemma all_cells_iff (P : Cell -> Prop) b :
  P default_cell -> all_cells P b <-> forall r c, P (cell_at b r c).
Proof.
  intros Hd; unfold all_cells; rewrite Forall_lookup; split.
  - intros H r c; unfold cell_at.
    destruct ((r <? 0) || (c <? 0)); [done|].
    destruct (b !! Z.to_nat r) as [row|] eqn:Hrow; [|done].
    specialize (H _ _ Hrow); rewrite Forall_lookup in H.
    destruct (row !! Z.to_nat c) eqn:Hx; [|done]. by eapply H.
  - intros H i row Hrow; rewrite Forall_lookup; intros j x Hx.
    specialize (H (Z.of_nat i) (Z.of_nat j)); unfold cell_at in H.
    assert (Hn : ((Z.of_nat i <? 0) || (Z.of_nat j <? 0)) = false)
      by (apply orb_false_iff; rewrite !Z.ltb_ge; lia).
    rewrite Hn, !Nat2Z.id, Hrow, Hx in H; done.
Qed.

Lemma no_revealed_flag_iff b :
  no_revealed_flag b <->
  forall r c, is_revealed (cell_at b r c) && is_flagged (cell_at b r c) = false.
Proof. apply all_cells_iff; done. Qed.

Lemma no_revealed_flag_rel b b' :
  reveal_rel b b' -> no_revealed_flag b -> no_revealed_flag b'.
Proof.
  rewrite !no_revealed_flag_iff; intros R H r c.
  destruct (proj2 R r c) as [->|[Hf ->]]; [done|]. simpl; done.
Qed.

(** A write to an unrevealed in-bounds cell that keeps it unrevealed. *)
Lemma guarded_update_ok g b row col :
  (forall x, is_revealed (g x) = is_revealed x) ->
  no_revealed_flag b ->
  no_revealed_flag (if in_bounds b row col && negb (is_revealed (cell_at b row col))
                    then update_cell g b row col else b).
Proof.
  intros Hg H.
  destruct (in_bounds b row col && negb (is_revealed (cell_at b row col))) eqn:Hc; [|done].
  apply andb_true_iff in Hc as [_ Hc]; apply negb_true_iff in Hc.
  rewrite no_revealed_flag_iff in H |- *; intros r c.
  destruct (decide ((r, c) = (row, col))) as [Heq|Hne].
  - injection Heq as -> ->.
    destruct (cell_at_update_eq g b row col) as [->| ->]; [|done].
    rewrite Hg, Hc; done.
  - rewrite cell_at_update_ne by done; done.
Qed.

Lemma toggle_flag_cell_ok b r c :
  no_revealed_flag b -> no_revealed_flag (toggle_flag_cell b r c).
Proof. apply guarded_update_ok; done. Qed.

Lemma flag_cell_ok b r c : no_revealed_flag b -> no_revealed_flag (flag_cell b r c).
Proof. apply guarded_update_ok; done. Qed.

Lemma shape_toggle_flag_cell b r c : shape (toggle_flag_cell b r c) = shape b.
Proof. unfold toggle_flag_cell; destruct (_ && _); [apply shape_update|done]. Qed.

Lemma shape_flag_cell b r c : shape (flag_cell b r c) = shape b.
Proof. unfold flag_cell; destruct (_ && _); [apply shape_update|done]. Qed.

Lemma flag_adjacent_cells_ok b row col :
  no_revealed_flag b ->
  shape (flag_adjacent_cells b row col) = shape b /\
  no_revealed_flag (flag_adjacent_cells b row col).
Proof.
  unfold flag_adjacent_cells; generalize offsets as offs.
  intros offs; revert b; induction offs as [|[i j] offs IH]; intros b H; simpl; [done|].
  destruct (IH (flag_cell b (row + i) (col + j))) as [Hs Hok]; [by apply flag_cell_ok|].
  rewrite Hs, shape_flag_cell; done.
Qed.

(** [reveal_adjacent_cells] with fuel above the number of unrevealed cells
    finishes and only reveals unflagged cells. *)
Lemma reveal_adjacent_cells_spec fuel b row col :
  rectangular b -> (unrevealed b < fuel)%nat ->
  exists res b', reveal_adjacent_cells fuel b row col = Some (res, b') /\ reveal_rel b b'.
Proof.
  unfold reveal_adjacent_cells; generalize offsets as offs.
  intros offs; revert b; induction offs as [|[i j] offs IH]; intros b Hrect Hlt; simpl.
  - exists true, b; split; [done|apply reveal_rel_refl].
  - destruct (reveal_cell_spec fuel b (row + i) (col + j) Hrect Hlt)
      as (res & b1 & E1 & R1 & _ & _).
    rewrite E1. destruct res.
    + destruct (IH b1) as (res & b2 & E2 & R2).
      { by eapply rel_rectangular. }
      { pose proof (unrevealed_rel _ _ R1); lia. }
      exists res, b2; split; [done|by eapply reveal_rel_trans].
    + exists false, b1; done.
Qed.

Lemma exec_op_ok o b :
  rectangular b -> no_revealed_flag b ->
  exists b', exec_op o b = Some b' /\ rectangular b' /\ no_revealed_flag b'.
Proof.
  intros Hrect H; destruct o as [r c|r c|r c|r c|r c]; cbn [exec_op].
  - destruct (reveal_cell_spec (reveal_fuel b) b r c Hrect (unrevealed_fuel b))
      as (res & b' & E & R & _ & _).
    rewrite E; exists b'; split_and!; [done|by eapply rel_rectangular|by eapply no_revealed_flag_rel].
  - destruct (reveal_adjacent_cells_spec (reveal_fuel b) b r c Hrect (unrevealed_fuel b))
      as (res & b' & E & R).
    rewrite E; exists b'; split_and!; [done|by eapply rel_rectangular|by eapply no_revealed_flag_rel].
  - eexists; split_and!; [done|eapply rectangular_shape; [apply shape_toggle_flag_cell|done]|].
    by apply toggle_flag_cell_ok.
  - eexists; split_and!; [done|eapply rectangular_shape; [apply shape_flag_cell|done]|].
    by apply flag_cell_ok.
  - destruct (flag_adjacent_cells_ok b r c H) as [Hs Hok].
    eexists; split_and!; [done|eapply rectangular_shape; done|done].
Qed.

Lemma guard_of_out_of_bounds b r c :
  in_bounds b r c = false ->
  ((r <? 0) || (height b <=? r) || (c <? 0) || (width b <=? c)) = true.
Proof.
  intros H; destruct (_ || _ || _ || _) eqn:Hg; [done|].
  apply guard_false_in_bounds in Hg; congruence.
Qed.

(** ** Claims *)

(** C5 (amended).  On a rectangular board with no flagged and no revealed
    cell, revealing an in-bounds cell reveals every cell of its
    [zero_reach] region: every cell reachable from it through 8-adjacent
    non-mine cells of adjacent-mine count zero, together with the numbered
    (or mine) cells bordering them.  The call also finishes. *)
Theorem reveal_zero_region b r0 c0 :
  rectangular b ->
  all_cells (fun x => is_flagged x = false) b ->
  all_cells (fun x => is_revealed x = false) b ->
  in_bounds b r0 c0 = true ->
  exists res b', reveal_cell (reveal_fuel b) b r0 c0 = Some (res, b') /\
    forall r c, zero_reach b r0 c0 r c -> is_revealed (cell_at b' r c) = true.
Proof.
  intros Hrect Hf Hr Hin.
  rewrite all_cells_iff in Hf, Hr by done.
  destruct (reveal_cell_spec (reveal_fuel b) b r0 c0 Hrect (unrevealed_fuel b))
    as (res & b' & E & R & C & T).
  exists res, b'; split; [done|].
  intros r c Hz; induction Hz as [|r c i j Hz IH Hm Ha Hi Hj Hin'].
  - apply T; done.
  - apply (C r c); done.
Qed.

Lemma reveal_zero_region_witness :
  rectangular row_0000 /\ all_cells (fun x => is_flagged x = false) row_0000 /\
  all_cells (fun x => is_revealed x = false) row_0000 /\ in_bounds row_0000 0 2 = true /\
  exists res b', reveal_cell (reveal_fuel row_0000) row_0000 0 2 = Some (res, b') /\
    forall r c, zero_reach row_0000 0 2 r c -> is_revealed (cell_at b' r c) = true.
Proof.
  assert (Hr : rectangular row_0000) by (vm_compute; repeat constructor).
  assert (Hf : all_cells (fun x => is_flagged x = false) row_0000)
    by (vm_compute; repeat constructor).
  assert (Hv : all_cells (fun x => is_revealed x = false) row_0000)
    by (vm_compute; repeat constructor).
  assert (Hin : in_bounds row_0000 0 2 = true) by reflexivity.
  split_and!; try assumption.
  exact (reveal_zero_region row_0000 0 2 Hr Hf Hv Hin).
Defined.

(** Claim C5 read literally fails.  (a) [generate_board] and
    [read_board_from_file] leave [adjacent_mines = 0] on every mine, so a mine
    is an in-bounds zero-count cell; revealing the mine of the row [M 1 0]
    stops at once and leaves its numbered neighbour hidden.  (b) A board with
    no flag can hold revealed cells (flag the two ends of a mine-free 1x4 row,
    reveal the second cell, unflag the ends): revealing the first cell then
    stops at the revealed cells and leaves the last cell, which is in the
    zero-connected region, hidden. *)
Lemma reveal_zero_region_counterexample :
  (in_bounds row_m10 0 0 = true /\ adjacent_mines (cell_at row_m10 0 0) = 0 /\
   in_bounds row_m10 0 1 = true /\
   exists res b', reveal_cell (reveal_fuel row_m10) row_m10 0 0 = Some (res, b') /\
     is_revealed (cell_at b' 0 1) = false) /\
  (exists bb,
     exec_ops [ToggleFlag 0 0; ToggleFlag 0 3; Reveal 0 1; ToggleFlag 0 0; ToggleFlag 0 3]
       row_0000 = Some bb /\
     all_cells (fun x => is_flagged x = false) bb /\
     adjacent_mines (cell_at bb 0 0) = 0 /\ zero_reach bb 0 0 0 3 /\
     exists res b', reveal_cell (reveal_fuel bb) bb 0 0 = Some (res, b') /\
       is_revealed (cell_at b' 0 3) = false).
Proof.
  split.
  - split_and!; try reflexivity. eexists _, _; split; reflexivity.
  - eexists; split; [reflexivity|]. split_and!.
    + vm_compute; repeat constructor.
    + reflexivity.
    + refine (zr_step _ _ _ 0 2 0 1 _ _ _ _ _ _); try reflexivity; try lia.
      refine (zr_step _ _ _ 0 1 0 1 _ _ _ _ _ _); try reflexivity; try lia.
      refine (zr_step _ _ _ 0 0 0 1 _ _ _ _ _ _); try reflexivity; try lia.
      apply zr_start.
    + eexists _, _; split; reflexivity.
Qed.

(** Claim C6 fails on the code.  The chord step of [reveal_cell] reveals every
    unflagged neighbour once the flags around a number match it, and the
    recursive results are discarded: on the row [M 1 0] with a wrong flag on
    the last cell, revealing the [1] reveals the mine at (0, 0), yet the call
    returns true, so the loss is not reported. *)
Theorem reveal_cell_hides_mine :
  is_mine (cell_at (toggle_flag_cell row_m10 0 2) 0 0) = true /\
  is_revealed (cell_at (toggle_flag_cell row_m10 0 2) 0 0) = false /\
  exists b',
    reveal_cell (reveal_fuel (toggle_flag_cell row_m10 0 2)) (toggle_flag_cell row_m10 0 2) 0 1
      = Some (true, b') /\
    is_mine (cell_at b' 0 0) = true /\ is_revealed (cell_at b' 0 0) = true.
Proof. split_and!; try reflexivity. eexists; split_and!; reflexivity. Qed.

(** Claim C7.  On a rectangular board on which no cell is both revealed and
    flagged, every sequence of the public operations (reveal, reveal around,
    toggle flag, flag, flag around) runs to completion and keeps the property:
    no cell is ever both revealed and flagged. *)
Theorem exec_ops_no_revealed_flag os b :
  rectangular b -> no_revealed_flag b ->
  exists b', exec_ops os b = Some b' /\ no_revealed_flag b'.
Proof.
  revert b; induction os as [|o os IH]; intros b Hr Hn; simpl; [eauto|].
  destruct (exec_op_ok o b Hr Hn) as (b1 & E & Hr1 & Hn1); rewrite E.
  apply IH; done.
Qed.

Lemma exec_ops_no_revealed_flag_witness :
  rectangular row_m10 /\ no_revealed_flag row_m10 /\
  exists b', exec_ops [ToggleFlag 0 2; Reveal 0 1; FlagAdjacent 0 1; RevealAdjacent 0 1]
               row_m10 = Some b' /\ no_revealed_flag b'.
Proof.
  assert (Hr : rectangular row_m10) by (vm_compute; repeat constructor).
  assert (Hn : no_revealed_flag row_m10) by (vm_compute; repeat constructor).
  split_and!; try assumption.
  exact (exec_ops_no_revealed_flag _ _ Hr Hn).
Defined.

(** Claim C9.  [field_clear] holds exactly when every cell is a flagged mine or
    a revealed non-mine; so revealing every non-mine is not enough, as the row
    [mine_unflagged] (its non-mine revealed, its mine unflagged) shows. *)
Theorem field_clear_spec b :
  (field_clear b = true <->
   forall row, row ∈ b -> forall x, x ∈ row ->
     (is_mine x = true /\ is_flagged x = true) \/
     (is_mine x = false /\ is_revealed x = true)) /\
  all_cells (fun x => is_mine x = false -> is_revealed x = true) mine_unflagged /\
  field_clear mine_unflagged = false.
Proof.
  split; [|split; [vm_compute; repeat constructor; done|reflexivity]].
  unfold field_clear; rewrite forallb_forall; split.
  - intros H row Hrow x Hx. rewrite list_elem_of_In in Hrow; rewrite list_elem_of_In in Hx.
    pose proof (proj1 (forallb_forall _ _) (H row Hrow) x Hx) as Hc.
    destruct x as [[] [] [] ??]; simpl in *; try discriminate; auto.
  - intros H row Hrow. apply forallb_forall; intros x Hx.
    rewrite <- list_elem_of_In in Hrow; rewrite <- list_elem_of_In in Hx.
    destruct (H row Hrow x Hx) as [[-> ->]|[-> ->]]; [done|].
    destruct (is_flagged x); done.
Qed.

(** Claim C10.  At coordinates outside the board, [reveal_cell] returns true
    and leaves the board as it was, and [toggle_flag_cell] and [flag_cell]
    leave it as it was; no cell is read or written. *)
Theorem out_of_bounds_noop b r c f :
  in_bounds b r c = false ->
  reveal_cell (S f) b r c = Some (true, b) /\
  toggle_flag_cell b r c = b /\ flag_cell b r c = b.
Proof.
  intros H; split_and!.
  - cbn [reveal_cell]. rewrite (guard_of_out_of_bounds b r c H); reflexivity.
  - unfold toggle_flag_cell; rewrite H; done.
  - unfold flag_cell; rewrite H; done.
Qed.

Lemma out_of_bounds_noop_witness :
  in_bounds row_m10 5 (-1) = false /\
  reveal_cell 1 row_m10 5 (-1) = Some (true, row_m10) /\
  toggle_flag_cell row_m10 5 (-1) = row_m10 /\ flag_cell row_m10 5 (-1) = row_m10.
Proof.
  split; [reflexivity|].
  apply (out_of_bounds_noop row_m10 5 (-1) 0); reflexivity.
Defined.

(** ** Further properties *)

(** [reveal_cell] returns false only when its own target is an in-bounds,
    unrevealed, unflagged mine, and then it only reveals that cell. *)
Theorem reveal_cell_false f b r c b' :
  reveal_cell f b r c = Some (false, b') ->
  in_bounds b r c = true /\ is_revealed (cell_at b r c) = false /\
  is_flagged (cell_at b r c) = false /\ is_mine (cell_at b r c) = true /\
  b' = update_cell set_revealed b r c.
Proof.
  destruct f as [|f]; [done|]. cbn [reveal_cell].
  destruct ((r <? 0) || (height b <=? r) || (c <? 0) || (width b <=? c)) eqn:Hg;
    cbn [orb]; [intros; congruence|].
  apply guard_false_in_bounds in Hg as Hin.
  destruct (is_revealed (cell_at b r c)) eqn:Hrev; cbn [orb]; [intros; congruence|].
  destruct (is_flagged (cell_at b r c)) eqn:Hfl; [intros; congruence|].
  destruct (is_mine (cell_at (update_cell set_revealed b r c) r c)) eqn:Hm.
  - intros [= <-]. split_and!; try done.
    destruct (cell_at_update_eq set_revealed b r c) as [E|E]; rewrite E in Hm; done.
  - unfold option_map; repeat case_match; intros; congruence.
Qed.

Lemma reveal_cell_false_witness :
  reveal_cell (reveal_fuel row_m10) row_m10 0 0 =
    Some (false, update_cell set_revealed row_m10 0 0) /\
  (in_bounds row_m10 0 0 = true /\ is_revealed (cell_at row_m10 0 0) = false /\
   is_flagged (cell_at row_m10 0 0) = false /\ is_mine (cell_at row_m10 0 0) = true /\
   update_cell set_revealed row_m10 0 0 = update_cell set_revealed row_m10 0 0).
Proof.
  split; [reflexivity|].
  apply (reveal_cell_false (reveal_fuel row_m10) row_m10 0 0); reflexivity.
Defined.

(** On a rectangular board [reveal_cell] finishes within [reveal_fuel], one
    more than the number of cells, and it only reveals unflagged cells:
    every cell keeps its mine, flag and count, and a cell that changes is an
    unflagged cell that becomes revealed. *)
Theorem reveal_cell_terminates b r c :
  rectangular b ->
  exists res b', reveal_cell (reveal_fuel b) b r c = Some (res, b') /\ reveal_rel b b'.
Proof.
  intros Hrect.
  destruct (reveal_cell_spec (reveal_fuel b) b r c Hrect (unrevealed_fuel b))
    as (res & b' & E & R & _ & _).
  eauto.
Qed.

Lemma reveal_cell_terminates_witness :
  rectangular row_0000 /\
  exists res b', reveal_cell (reveal_fuel row_0000) row_0000 0 1 = Some (res, b') /\
    reveal_rel row_0000 b'.
Proof.
  assert (Hr : rectangular row_0000) by (vm_compute; repeat constructor).
  split; [exact Hr|].
  exact (reveal_cell_terminates row_0000 0 1 Hr).
Defined.

End BoardFacts.

(* ================================================================= *)
(** * The Deduction Propagator *)

Module PropagatorFacts.
Import CSP Propagator.

(** Claim C8 (modelled from the spec).  A frontier variable is classified
    forced-safe exactly when the run with it pre-bound to SAFE succeeds and
    the run with it pre-bound to MINE does not, forced-mine in the opposite
    case; so no variable is both forced-safe and forced-mine. *)
Theorem propagate_exclusive s fr x :
  (x ∈ (propagate s fr).1 <->
   x ∈ fr /\ engine_succeeds s {[x := SAFE]} = true /\ engine_succeeds s {[x := MINE]} = false) /\
  (x ∈ (propagate s fr).2 <->
   x ∈ fr /\ engine_succeeds s {[x := SAFE]} = false /\ engine_succeeds s {[x := MINE]} = true) /\
  ~ (x ∈ (propagate s fr).1 /\ x ∈ (propagate s fr).2).
Proof.
  unfold propagate; simpl. rewrite !list_elem_of_filter. unfold classify.
  destruct (engine_succeeds s {[x := SAFE]}), (engine_succeeds s {[x := MINE]});
    naive_solver.
Qed.

End PropagatorFacts.

Module GameFacts.
Import Board Game BoardFacts.

(** ** Counting cells *)

Lemma sum_alter {A} (f : A -> nat) (h : A -> A) (l : list A) i x :
  l !! i = Some x ->
  (sum_list_with f (alter h i l) + f x = sum_list_with f l + f (h x))%nat.
Proof.
  revert i; induction l as [|y l IH]; intros [|i] Hi; simpl in *; try discriminate.
  - injection Hi as ->; clear IH.
    remember (f (h x)) as a; remember (f x) as d; remember (sum_list_with f l) as s; lia.
  - specialize (IH i Hi). change (list_alter h i l) with (alter h i l). lia.
Qed.

Lemma sum_alter_same {A} (f : A -> nat) (h : A -> A) (l : list A) i :
  (forall y, f (h y) = f y) -> sum_list_with f (alter h i l) = sum_list_with f l.
Proof.
  intros Hh; revert i; induction l as [|y l IH]; intros [|i]; simpl; try done.
  - rewrite Hh; done.
  - change (list_alter h i l) with (alter h i l); rewrite IH; done.
Qed.

Lemma cells_where_update p g b r c :
  rectangular b -> in_bounds b r c = true ->
  (cells_where p (update_cell g b r c) + (if p (cell_at b r c) then 1 else 0) =
   cells_where p b + (if p (g (cell_at b r c)) then 1 else 0))%nat.
Proof.
  intros Hrect Hin.
  destruct (cell_exists b r c Hrect Hin) as (row & x & Hrow & Hx).
  unfold in_bounds in Hin; rewrite !andb_true_iff, !Z.leb_le, !Z.ltb_lt in Hin.
  assert (Hn : ((r <? 0) || (c <? 0)) = false)
    by (apply orb_false_iff; rewrite !Z.ltb_ge; lia).
  assert (Ec : cell_at b r c = x) by (unfold cell_at; rewrite Hn, Hrow, Hx; done).
  rewrite Ec; unfold cells_where, update_cell; rewrite Hn.
  pose proof (sum_alter (sum_list_with (fun x => if p x then 1%nat else 0%nat))
                (alter g (Z.to_nat c)) b (Z.to_nat r) row Hrow) as E1.
  pose proof (sum_alter (fun x => if p x then 1%nat else 0%nat) g row (Z.to_nat c) x Hx) as E2.
  lia.
Qed.

Lemma cells_where_update_same p g b r c :
  (forall x, p (g x) = p x) -> cells_where p (update_cell g b r c) = cells_where p b.
Proof.
  intros Hg; unfold cells_where, update_cell; destruct (_ || _); [done|].
  apply sum_alter_same; intros row. apply sum_alter_same; intros x; rewrite Hg; done.
Qed.

Lemma cells_where_le p b : (cells_where p b <= sum_list_with length b)%nat.
Proof.
  unfold cells_where; induction b as [|row b IH]; simpl; [lia|].
  enough (sum_list_with (fun x => if p x then 1%nat else 0%nat) row <= length row)%nat by lia.
  induction row as [|x row IHr]; simpl; [lia|]. destruct (p x); lia.
Qed.

Lemma sum_length_shape b b' : shape b' = shape b -> sum_list_with length b' = sum_list_with length b.
Proof.
  revert b'; induction b as [|row b IH]; intros [|row' b'] H; simpl in *; try discriminate; [done|].
  injection H as H1 H2; rewrite H1, (IH b' H2); done.
Qed.

Lemma all_cells_update (P : Cell -> Prop) g b r c :
  P default_cell -> (forall x, P x -> P (g x)) ->
  all_cells P b -> all_cells P (update_cell g b r c).
Proof.
  intros Hd Hg; rewrite !all_cells_iff by done; intros H r' c'.
  destruct (decide ((r', c') = (r, c))) as [Heq|Hne].
  - injection Heq as -> ->.
    destruct (cell_at_update_eq g b r c) as [->| ->]; auto.
  - rewrite cell_at_update_ne by done; auto.
Qed.

(** ** The empty board of [generate_board] *)

Lemma shape_empty_board h w :
  shape (empty_board h w) = repeat (Z.to_nat w) (Z.to_nat h).
Proof.
  unfold shape, empty_board; induction (Z.to_nat h) as [|n IH]; [done|].
  cbn [repeat]; rewrite fmap_cons, IH, repeat_length; done.
Qed.

Lemma height_empty_board h w : 0 <= h -> height (empty_board h w) = h.
Proof. intros; unfold height, empty_board; rewrite repeat_length; lia. Qed.

Lemma width_empty_board h w : 0 < h -> 0 <= w -> width (empty_board h w) = w.
Proof.
  intros; unfold width, empty_board.
  destruct (Z.to_nat h) eqn:E; [lia|]. simpl; rewrite repeat_length; lia.
Qed.

Lemma rectangular_empty_board h w : 0 < h -> 0 <= w -> rectangular (empty_board h w).
Proof.
  intros Hh Hw; unfold rectangular; rewrite shape_empty_board, width_empty_board by done.
  induction (Z.to_nat h); simpl; constructor; [lia|done].
Qed.

Lemma sum_length_empty_board h w :
  0 <= h -> 0 <= w -> Z.of_nat (sum_list_with length (empty_board h w)) = h * w.
Proof.
  intros Hh Hw; unfold empty_board.
  assert (E : forall n, sum_list_with length (repeat (repeat default_cell (Z.to_nat w)) n)
                        = (n * Z.to_nat w)%nat).
  { induction n as [|n IH]; simpl; [done|]. rewrite repeat_length, IH; done. }
  rewrite E; lia.
Qed.

Lemma all_cells_empty_board (P : Cell -> Prop) h w :
  P default_cell -> all_cells P (empty_board h w).
Proof.
  intros Hd; unfold all_cells, empty_board.
  apply Forall_forall; intros row Hrow; apply list_elem_of_In, repeat_spec in Hrow as ->.
  apply Forall_forall; intros x Hx; apply list_elem_of_In, repeat_spec in Hx as ->; done.
Qed.

Lemma cells_where_empty_board h w : cells_where is_mine (empty_board h w) = 0%nat.
Proof.
  unfold cells_where, empty_board.
  assert (E : forall k, sum_list_with (fun x => if is_mine x then 1%nat else 0%nat)
                          (repeat default_cell k) = 0%nat)
    by (induction k as [|k IHk]; simpl; [done|]; rewrite IHk; done).
  induction (Z.to_nat h) as [|n IH]; simpl; [done|]. rewrite IH, E; done.
Qed.

(** ** The placement loop *)


Lemma mod_in_bounds b x y :
  0 < height b -> 0 < width b -> in_bounds b (x mod height b) (y mod width b) = true.
Proof.
  intros Hh Hw; unfold in_bounds.
  pose proof (Z.mod_pos_bound x (height b) Hh); pose proof (Z.mod_pos_bound y (width b) Hw).
  rewrite !andb_true_iff, !Z.leb_le, !Z.ltb_lt; lia.
Qed.

Lemma place_mines_spec m n : forall rands b placed b',
  (length rands <= n)%nat -> rectangular b -> 0 < height b -> 0 < width b ->
  all_cells placed_cell b -> Z.of_nat (cells_where is_mine b) = placed ->
  place_mines m rands b placed = Some b' ->
  shape b' = shape b /\ all_cells placed_cell b' /\
  Z.of_nat (cells_where is_mine b') = Z.max placed m.
Proof.
  induction n as [|n IH]; intros rands b placed b' Hlen Hrect Hh Hw Hpl Hcnt E;
    (assert (Hz : ((height b =? 0) || (width b =? 0)) = false)
       by (apply orb_false_iff; split; apply Z.eqb_neq; lia));
    (destruct rands as [|x [|y rest]]; cbn [place_mines] in E; rewrite ?Hz in E;
     simpl in E, Hlen; [| |try lia];
     destruct (placed <? m) eqn:Hp; try discriminate;
     try (injection E as <-; apply Z.ltb_ge in Hp; split_and!; [done|done|lia])).
  apply Z.ltb_lt in Hp.
  pose proof (mod_in_bounds b x y Hh Hw) as Hin.
  set (row := x mod height b) in *; set (col := y mod width b) in *.
  destruct (is_mine (cell_at b row col)) eqn:Hm; simpl in E.
  + apply (IH rest b placed b'); try done; lia.
  + pose proof (shape_update set_mine b row col) as Hs1.
    pose proof (cells_where_update is_mine set_mine b row col Hrect Hin) as Hc1.
    rewrite Hm in Hc1; simpl in Hc1.
    destruct (IH rest (update_cell set_mine b row col) (placed + 1) b') as (Hs & Hpl' & Hc');
      try done.
    * lia.
    * by eapply rectangular_shape.
    * rewrite (height_shape _ _ Hs1); done.
    * rewrite (width_shape _ _ Hs1); done.
    * apply all_cells_update; [done| |done].
      intros [] (?&?&?&?); unfold placed_cell; simpl; done.
    * lia.
    * split_and!; [congruence|done|lia].
Qed.

Lemma place_mines_none m n : forall rands b placed,
  (length rands <= n)%nat -> rectangular b -> 0 < height b -> 0 < width b ->
  Z.of_nat (cells_where is_mine b) = placed ->
  Z.of_nat (sum_list_with length b) < m ->
  place_mines m rands b placed = None.
Proof.
  induction n as [|n IH]; intros rands b placed Hlen Hrect Hh Hw Hcnt Htot;
    pose proof (cells_where_le is_mine b);
    (assert (Hp : (placed <? m) = true) by (apply Z.ltb_lt; lia));
    (assert (Hz : ((height b =? 0) || (width b =? 0)) = false)
       by (apply orb_false_iff; split; apply Z.eqb_neq; lia));
    (destruct rands as [|x [|y rest]]; cbn [place_mines]; rewrite Hp, Hz; simpl in Hlen |- *;
     [done|done|try lia]).
  pose proof (mod_in_bounds b x y Hh Hw) as Hin.
  set (row := x mod height b) in *; set (col := y mod width b) in *.
  destruct (is_mine (cell_at b row col)) eqn:Hm; simpl.
  + apply IH; try done; lia.
  + pose proof (shape_update set_mine b row col) as Hs1.
    pose proof (cells_where_update is_mine set_mine b row col Hrect Hin) as Hc1.
    rewrite Hm in Hc1; simpl in Hc1.
    apply IH; try done.
    * lia.
    * by eapply rectangular_shape.
    * rewrite (height_shape _ _ Hs1); done.
    * rewrite (width_shape _ _ Hs1); done.
    * lia.
    * rewrite (sum_length_shape _ _ Hs1); done.
Qed.

(** ** The count pass *)

Lemma fold_left_ext_pw {A B} (f g : A -> B -> A) l a :
  (forall a x, f a x = g a x) -> fold_left f l a = fold_left g l a.
Proof.
  intros H; revert a; induction l as [|x l IH]; intros a; simpl; [done|]. rewrite H; apply IH.
Qed.

Lemma count_mines_around_ext b b' r c :
  shape b' = shape b -> (forall r c, is_mine (cell_at b' r c) = is_mine (cell_at b r c)) ->
  count_mines_around b' r c = count_mines_around b r c.
Proof.
  intros Hs Hm; unfold count_mines_around; apply fold_left_ext_pw; intros n [i j].
  rewrite (in_bounds_shape _ _ _ _ Hs), Hm; done.
Qed.

Lemma counts_only_refl b : counts_only b b.
Proof. split; [done|]. intros; by left. Qed.

Lemma counts_only_mine b0 bb r c :
  counts_only b0 bb -> is_mine (cell_at bb r c) = is_mine (cell_at b0 r c).
Proof. intros [_ H]; destruct (H r c) as [->|[_ [n ->]]]; done. Qed.

Lemma adjacency_step_counts_only b0 bb row col :
  counts_only b0 bb -> counts_only b0 (adjacency_step row col bb).
Proof.
  intros H; unfold adjacency_step.
  destruct (negb (is_mine (cell_at bb row col))) eqn:Hm; [|done].
  split; [rewrite shape_update; apply H|]. intros r c.
  destruct (decide ((r, c) = (row, col))) as [Heq|Hne].
  - injection Heq as -> ->.
    destruct (cell_at_update_eq (set_adjacent (count_mines_around bb row col)) bb row col)
      as [E|E]; rewrite E; [|apply H].
    right. destruct (proj2 H row col) as [E'|[Hm' [n E']]].
    + rewrite E' in Hm |- *. split; [destruct (is_mine _); done|]. eexists; done.
    + split; [done|]. rewrite E'. eexists; done.
  - rewrite cell_at_update_ne by done; apply H.
Qed.

(** A [for] loop whose body keeps [Inv], establishes [R k] at index [k] and
    keeps [R k'] at the other indices. *)
Lemma for_range_spec (Inv : Board -> Prop) (R : Z -> Board -> Prop) body :
  (forall k bb, Inv bb -> Inv (body k bb)) ->
  (forall k bb, Inv bb -> R k (body k bb)) ->
  (forall k k' bb, Inv bb -> k' <> k -> R k' bb -> R k' (body k bb)) ->
  forall n i b, Inv b ->
  Inv (for_range i n body b) /\
  (forall k, (k < i \/ i + Z.of_nat n <= k) -> R k b -> R k (for_range i n body b)) /\
  (forall k, i <= k < i + Z.of_nat n -> R k (for_range i n body b)).
Proof.
  intros Hinv Hest Hpres n; induction n as [|n IH]; intros i b Hb; simpl.
  - split_and!; [done|done|lia].
  - destruct (IH (i + 1) (body i b) (Hinv i b Hb)) as (H1 & H2 & H3).
    split_and!; [done| |].
    + intros k Hk Rk. apply H2; [lia|]. apply Hpres; [done|lia|done].
    + intros k Hk. destruct (decide (k = i)) as [->|Hne].
      * apply H2; [lia|]. apply Hest; done.
      * apply H3; lia.
Qed.

Lemma width_nonneg b : 0 <= width b.
Proof. destruct b; simpl; lia. Qed.

Lemma height_nonneg b : 0 <= height b.
Proof. unfold height; lia. Qed.

(** The count pass sets every in-bounds non-mine cell to the number of mines
    around it and changes nothing else. *)
Lemma set_adjacency_spec b0 :
  rectangular b0 ->
  counts_only b0 (set_adjacency b0) /\
  forall r c, in_bounds b0 r c = true -> is_mine (cell_at b0 r c) = false ->
    adjacent_mines (cell_at (set_adjacency b0) r c) = count_mines_around b0 r c.
Proof.
  intros Hrect.
  set (ok := fun bb r c => is_mine (cell_at b0 r c) = false ->
               adjacent_mines (cell_at bb r c) = count_mines_around b0 r c).
  assert (Hinner : forall row bb, counts_only b0 bb ->
    let bb' := for_range 0 (Z.to_nat (width bb)) (fun col => adjacency_step row col) bb in
    counts_only b0 bb' /\ (forall r c, r <> row -> cell_at bb' r c = cell_at bb r c) /\
    (0 <= row < height b0 -> forall c, 0 <= c < width b0 -> ok bb' row c)).
  { intros row bb Hbb bb'.
    destruct (for_range_spec
      (fun x => counts_only b0 x /\ forall r c, r <> row -> cell_at x r c = cell_at bb r c)
      (fun col x => 0 <= row < height b0 -> 0 <= col < width b0 -> ok x row col)
      (fun col => adjacency_step row col))
      with (n := Z.to_nat (width bb)) (i := 0) (b := bb) as ([H1 H1'] & _ & H3).
    - intros k x [Hx Hx']; split; [by apply adjacency_step_counts_only|].
      intros r c Hr; unfold adjacency_step; destruct (negb _); [|apply Hx'; done].
      rewrite cell_at_update_ne; [apply Hx'; done|]. intros E; injection E; done.
    - intros k x [Hx _] Hr Hk Hm0; unfold adjacency_step.
      rewrite (counts_only_mine _ _ _ _ Hx), Hm0; simpl.
      assert (Hrx : rectangular x) by (eapply rectangular_shape; [apply Hx|done]).
      assert (Hin : in_bounds x row k = true).
      { rewrite (in_bounds_shape _ _ _ _ (proj1 Hx)); unfold in_bounds.
        rewrite !andb_true_iff, !Z.leb_le, !Z.ltb_lt; lia. }
      rewrite (cell_at_update_in _ _ _ _ Hrx Hin); simpl.
      apply count_mines_around_ext; [apply Hx|]. intros; apply counts_only_mine, Hx.
    - intros k k' x _ Hne Rk Hr Hk Hm0; unfold adjacency_step; destruct (negb _); [|apply Rk; done].
      rewrite cell_at_update_ne; [apply Rk; done|]. intros E; injection E; lia.
    - split; [done|done].
    - split_and!; [done|done|]. intros Hr c Hc. apply H3; [|done|done].
      rewrite (width_shape _ _ (proj1 Hbb)), Z2Nat.id by apply width_nonneg; lia. }
  destruct (for_range_spec (counts_only b0)
    (fun row x => 0 <= row < height b0 -> forall c, 0 <= c < width b0 -> ok x row c)
    (fun row bb => for_range 0 (Z.to_nat (width bb)) (fun col => adjacency_step row col) bb))
    with (n := Z.to_nat (height b0)) (i := 0) (b := b0) as (H1 & _ & H3).
  - intros k x Hx; apply (Hinner k x Hx).
  - intros k x Hx; apply (Hinner k x Hx).
  - intros k k' x Hx Hne Rk Hr c Hc Hm0.
    destruct (Hinner k x Hx) as (_ & Hfr & _). rewrite Hfr by done. apply Rk; done.
  - apply counts_only_refl.
  - unfold set_adjacency; split; [done|]. intros r c Hin Hm0.
    unfold in_bounds in Hin; rewrite !andb_true_iff, !Z.leb_le, !Z.ltb_lt in Hin.
    apply H3; [|lia|lia|done]. rewrite Z2Nat.id by apply height_nonneg; lia.
Qed.

Lemma set_adjacency_mines b0 :
  cells_where is_mine (set_adjacency b0) = cells_where is_mine b0.
Proof.
  assert (Hstep : forall row col x, cells_where is_mine (adjacency_step row col x) = cells_where is_mine x).
  { intros row col x; unfold adjacency_step; destruct (negb _); [|done].
    apply cells_where_update_same; done. }
  unfold set_adjacency.
  apply (for_range_spec (fun x => cells_where is_mine x = cells_where is_mine b0) (fun _ _ => True));
    try done.
  intros k x Hx. rewrite <- Hx.
  apply (for_range_spec (fun y => cells_where is_mine y = cells_where is_mine x) (fun _ _ => True));
    try done.
  intros k' y Hy; rewrite Hstep; done.
Qed.

Lemma counts_consistent_iff b :
  counts_consistent b = true <->
  forall r c, in_bounds b r c = true -> is_mine (cell_at b r c) = false ->
    adjacent_mines (cell_at b r c) = count_mines_around b r c.
Proof.
  unfold counts_consistent; rewrite forallb_forall. split.
  - intros H r c Hin Hm. unfold in_bounds in Hin; rewrite !andb_true_iff, !Z.leb_le, !Z.ltb_lt in Hin.
    assert (Hr : In r (seqZ 0 (height b))) by (apply list_elem_of_In, elem_of_seqZ; lia).
    specialize (H r Hr); rewrite forallb_forall in H.
    assert (Hc : In c (seqZ 0 (width b))) by (apply list_elem_of_In, elem_of_seqZ; lia).
    specialize (H c Hc). rewrite Hm in H; simpl in H. apply Z.eqb_eq; done.
  - intros H r Hr; apply forallb_forall; intros c Hc.
    apply list_elem_of_In, elem_of_seqZ in Hr, Hc.
    destruct (is_mine (cell_at b r c)) eqn:Hm; [done|]. simpl; apply Z.eqb_eq, H; [|done].
    unfold in_bounds; rewrite !andb_true_iff, !Z.leb_le, !Z.ltb_lt; lia.
Qed.

(** X3. generate_board: on positive dimensions, a board it returns has [height] rows of
    [width] cells and exactly [max 0 mines_count] mines. Every cell is unrevealed, unflagged
    and not a safe start, and every mine has count 0. Every non-mine cell holds the number of
    mines among its in-bounds neighbours. *)
Theorem generate_board_spec m h w rands b :
  0 < h -> 0 < w -> generate_board m h w rands = Some b ->
  shape b = repeat (Z.to_nat w) (Z.to_nat h) /\
  Z.of_nat (cells_where is_mine b) = Z.max 0 m /\
  all_cells (fun x => is_revealed x = false /\ is_flagged x = false /\ safe_start x = false /\
                      (is_mine x = true -> adjacent_mines x = 0)) b /\
  counts_consistent b = true.
Proof.
  intros Hh Hw E; unfold generate_board in E.
  rewrite (proj2 (orb_false_iff _ _) (conj (proj2 (Z.ltb_ge h 0) ltac:(lia))
                                            (proj2 (Z.ltb_ge w 0) ltac:(lia)))) in E.
  destruct (place_mines m rands (empty_board h w) 0) as [b1|] eqn:E1; [|done].
  injection E as <-.
  destruct (place_mines_spec m (length rands) rands (empty_board h w) 0 b1)
    as (Hs1 & Hpl1 & Hc1); try done.
  - apply rectangular_empty_board; lia.
  - rewrite height_empty_board; lia.
  - rewrite width_empty_board; lia.
  - apply all_cells_empty_board; done.
  - rewrite cells_where_empty_board; done.
  - assert (Hrect1 : rectangular b1)
      by (eapply rectangular_shape; [exact Hs1|apply rectangular_empty_board; lia]).
    destruct (set_adjacency_spec b1 Hrect1) as [[Hs2 Hco] Hadj].
    split_and!.
    + rewrite Hs2, Hs1; apply shape_empty_board.
    + rewrite set_adjacency_mines, Hc1; lia.
    + rewrite all_cells_iff in Hpl1 |- * by done. intros r c.
      destruct (Hpl1 r c) as (Hr & Hf & Hss & Ha).
      destruct (Hco r c) as [->|[Hm [n ->]]]; [split_and!; done|].
      simpl; split_and!; try done. rewrite Hm; done.
    + apply counts_consistent_iff; intros r c Hin Hm.
      rewrite (in_bounds_shape _ _ _ _ Hs2) in Hin.
      assert (Hmine : forall r c, is_mine (cell_at (set_adjacency b1) r c) = is_mine (cell_at b1 r c))
        by (intros; apply counts_only_mine; split; done).
      rewrite Hmine in Hm.
      rewrite (Hadj r c Hin Hm). symmetry; apply count_mines_around_ext; done.
Qed.

(** X4. generate_board: when [mines_count] exceeds [height * width], no board is produced,
    whatever the supply of random numbers. With positive sizes the mine-placing loop never
    ends; with a zero size it divides by zero; with a negative size the board's constructor
    throws. *)
Theorem generate_board_too_many_mines m h w rands :
  h * w < m -> generate_board m h w rands = None.
Proof.
  intros Hm; unfold generate_board.
  destruct ((h <? 0) || (w <? 0)) eqn:Hneg; [done|].
  apply orb_false_iff in Hneg as [Hh Hw]; apply Z.ltb_ge in Hh, Hw.
  destruct (Z.eq_dec h 0) as [->|Hh0].
  { assert (Hz : height (empty_board 0 w) = 0) by (apply height_empty_board; lia).
    destruct rands as [|x [|y rest]]; cbn [place_mines];
      rewrite (proj2 (Z.ltb_lt 0 m)) by lia; rewrite Hz; done. }
  destruct (Z.eq_dec w 0) as [->|Hw0].
  { assert (Hz : width (empty_board h 0) = 0) by (apply width_empty_board; lia).
    destruct rands as [|x [|y rest]]; cbn [place_mines];
      rewrite (proj2 (Z.ltb_lt 0 m)) by lia; rewrite Hz, orb_true_r; done. }
  rewrite (place_mines_none m (length rands)); try done.
  - apply rectangular_empty_board; lia.
  - rewrite height_empty_board; lia.
  - rewrite width_empty_board; lia.
  - rewrite cells_where_empty_board; done.
  - rewrite sum_length_empty_board; lia.
Qed.

(** ** Revealing on a board with consistent counts and correct flags *)

Section Count.
Context (P : Z * Z -> bool).

Lemma cnt_shift l n :
  fold_left (fun n x => if P x then n + 1 else n) l (n + 1) =
  fold_left (fun n x => if P x then n + 1 else n) l n + 1.
Proof.
  revert n; induction l as [|x l IH]; intros n; simpl; [done|].
  destruct (P x); [|apply IH]. rewrite <- IH; done.
Qed.

Lemma cnt_ge l n : n <= fold_left (fun n x => if P x then n + 1 else n) l n.
Proof.
  revert n; induction l as [|x l IH]; intros n; simpl; [lia|].
  destruct (P x); [rewrite cnt_shift; specialize (IH n)|]; auto; lia.
Qed.

End Count.

Lemma cnt_mono (P Q : Z * Z -> bool) l n :
  (forall x, x ∈ l -> P x = true -> Q x = true) ->
  fold_left (fun n x => if P x then n + 1 else n) l n <=
  fold_left (fun n x => if Q x then n + 1 else n) l n.
Proof.
  revert n; induction l as [|y l IH]; intros n Himp; simpl; [lia|].
  assert (Himp' : forall x, x ∈ l -> P x = true -> Q x = true)
    by (intros; apply Himp; [by apply elem_of_cons; right|done]).
  specialize (IH n Himp').
  destruct (P y) eqn:Py.
  - rewrite (Himp y); [|by apply elem_of_cons; left|done]. rewrite !cnt_shift; lia.
  - destruct (Q y); [rewrite cnt_shift|]; lia.
Qed.

(** Two counts over the same positions, one of a predicate implied by the
    other: equal counts mean the predicates agree on every position. *)
Lemma cnt_eq (P Q : Z * Z -> bool) l n :
  (forall x, x ∈ l -> P x = true -> Q x = true) ->
  fold_left (fun n x => if P x then n + 1 else n) l n =
  fold_left (fun n x => if Q x then n + 1 else n) l n ->
  forall x, x ∈ l -> Q x = true -> P x = true.
Proof.
  revert n; induction l as [|y l IH]; intros n Himp Heq x Hx HQ; [by apply elem_of_nil in Hx|].
  simpl in Heq.
  assert (Himp' : forall x, x ∈ l -> P x = true -> Q x = true)
    by (intros; apply Himp; [by apply elem_of_cons; right|done]).
  destruct (P y) eqn:Py; destruct (Q y) eqn:Qy.
  - apply elem_of_cons in Hx as [->|Hx]; [done|]. apply (IH (n + 1)); done.
  - rewrite (Himp y) in Qy; [done|by apply elem_of_cons; left|done].
  - exfalso. rewrite cnt_shift in Heq. pose proof (cnt_mono P Q l n Himp'); lia.
  - apply elem_of_cons in Hx as [->|Hx]; [congruence|]. apply (IH n); done.
Qed.

Lemma cnt_none l n : fold_left (fun n (x : Z * Z) => if false then n + 1 else n) l n = n.
Proof. revert n; induction l; intros n; simpl; auto. Qed.

Lemma flags_correct_iff b :
  flags_correct b <->
  forall r c, is_flagged (cell_at b r c) = true -> is_mine (cell_at b r c) = true.
Proof.
  unfold flags_correct; rewrite all_cells_iff by done. split.
  - intros H r c Hf; specialize (H r c); rewrite Hf in H; done.
  - intros H r c; destruct (is_flagged (cell_at b r c)) eqn:Hf; [rewrite H|]; done.
Qed.

Lemma count_flagged_ext b b' r c :
  shape b' = shape b -> (forall r c, is_flagged (cell_at b' r c) = is_flagged (cell_at b r c)) ->
  count_flagged_neighbors b' r c = count_flagged_neighbors b r c.
Proof.
  intros Hs Hf; unfold count_flagged_neighbors; apply fold_left_ext_pw; intros n [i j].
  rewrite (in_bounds_shape _ _ _ _ Hs), Hf; done.
Qed.

(** When the flags around [(r, c)] are all on mines and as many as the
    mines, every in-bounds unflagged neighbour is safe. *)
Lemma chord_neighbors_safe b r c :
  flags_correct b -> count_flagged_neighbors b r c = count_mines_around b r c ->
  forall i j, (i, j) ∈ offsets -> in_bounds b (r + i) (c + j) = true ->
  is_flagged (cell_at b (r + i) (c + j)) = false -> is_mine (cell_at b (r + i) (c + j)) = false.
Proof.
  rewrite flags_correct_iff; intros Hfc Heq i j Hij Hin Hf.
  unfold count_flagged_neighbors, count_mines_around in Heq.
  erewrite (fold_left_ext_pw _ (fun n x =>
    if (let '(i, j) := x in in_bounds b (r + i) (c + j) && is_flagged (cell_at b (r + i) (c + j)))
    then n + 1 else n)) in Heq by (intros ? []; done).
  erewrite (fold_left_ext_pw (fun n '(i, j) => _) (fun n x =>
    if (let '(i, j) := x in in_bounds b (r + i) (c + j) && is_mine (cell_at b (r + i) (c + j)))
    then n + 1 else n)) in Heq by (intros ? []; done).
  destruct (is_mine (cell_at b (r + i) (c + j))) eqn:Hm; [|done].
  pose proof (cnt_eq
    (fun x => let '(i, j) := x in in_bounds b (r + i) (c + j) && is_flagged (cell_at b (r + i) (c + j)))
    (fun x => let '(i, j) := x in in_bounds b (r + i) (c + j) && is_mine (cell_at b (r + i) (c + j)))
    offsets 0) as H.
  specialize (H ltac:(intros [i' j'] _; rewrite !andb_true_iff; intros [? ?]; split; auto) Heq (i, j) Hij).
  cbv beta iota in H. rewrite Hin, Hm, Hf in H; specialize (H eq_refl); done.
Qed.

(** Around a cell with no mine around it, every in-bounds neighbour is safe. *)
Lemma zero_neighbors_safe b r c :
  count_mines_around b r c = 0 ->
  forall i j, (i, j) ∈ offsets -> in_bounds b (r + i) (c + j) = true ->
  is_mine (cell_at b (r + i) (c + j)) = false.
Proof.
  intros H0 i j Hij Hin.
  unfold count_mines_around in H0.
  erewrite (fold_left_ext_pw (fun n '(i, j) => _) (fun n x =>
    if (let '(i, j) := x in in_bounds b (r + i) (c + j) && is_mine (cell_at b (r + i) (c + j)))
    then n + 1 else n)) in H0 by (intros ? []; done).
  destruct (is_mine (cell_at b (r + i) (c + j))) eqn:Hm; [|done].
  pose proof (cnt_eq (fun _ => false)
    (fun x => let '(i, j) := x in in_bounds b (r + i) (c + j) && is_mine (cell_at b (r + i) (c + j)))
    offsets 0) as H.
  rewrite cnt_none, H0 in H.
  specialize (H ltac:(done) eq_refl (i, j) Hij); cbv beta iota in H.
  rewrite Hin, Hm in H; specialize (H eq_refl); done.
Qed.

Lemma safe_rel_refl b : safe_rel b b.
Proof. split; [apply reveal_rel_refl|done]. Qed.

Lemma safe_rel_trans b1 b2 b3 : safe_rel b1 b2 -> safe_rel b2 b3 -> safe_rel b1 b3.
Proof.
  intros [R1 M1] [R2 M2]; split; [by eapply reveal_rel_trans|].
  intros r c Hm. rewrite M2; [apply M1; done|]. rewrite (rel_mine _ _ R1); done.
Qed.

Lemma flags_correct_rel b b' : reveal_rel b b' -> flags_correct b -> flags_correct b'.
Proof.
  rewrite !flags_correct_iff; intros R H r c.
  rewrite (rel_flagged _ _ R), (rel_mine _ _ R); apply H.
Qed.

Lemma counts_consistent_rel b b' :
  reveal_rel b b' -> counts_consistent b = true -> counts_consistent b' = true.
Proof.
  rewrite !counts_consistent_iff; intros R H r c Hin Hm.
  rewrite (rel_in_bounds _ _ R) in Hin; rewrite (rel_mine _ _ R) in Hm.
  rewrite (rel_adjacent _ _ R), (H r c Hin Hm).
  symmetry; apply count_mines_around_ext; [apply R|]. intros; apply (rel_mine _ _ R).
Qed.

(** A loop whose every step is related to its input by a preorder relates
    its input to its output. *)
Lemma for_offsets_rel (Rel : Board -> Board -> Prop) step row col offs :
  (forall b, Rel b b) -> (forall x y z, Rel x y -> Rel y z -> Rel x z) ->
  forall b b',
  (forall i j bb bb', (i, j) ∈ offs -> Rel b bb -> step bb (row + i) (col + j) = Some bb' ->
     Rel bb bb') ->
  for_offsets step row col offs b = Some b' -> Rel b b'.
Proof.
  intros Hrefl Htrans; induction offs as [|[i j] offs IH]; intros b b' Hstep E; simpl in E.
  - injection E as <-; done.
  - destruct (step b (row + i) (col + j)) as [b1|] eqn:E1; [|done].
    assert (R1 : Rel b b1) by (eapply Hstep; [by apply elem_of_cons; left|done|done]).
    apply Htrans with b1; [done|]. apply (IH b1 b'); [|done].
    intros i' j' bb bb' Hij Rb; apply Hstep; [by apply elem_of_cons; right|eauto].
Qed.

(** Any finished call of [reveal_cell] on a board with consistent counts and
    correct flags, whose target is not an unrevealed unflagged mine, returns
    [true] and reveals no mine. *)
Lemma reveal_cell_safe_gen f : forall b r c res b',
  counts_consistent b = true -> flags_correct b ->
  (in_bounds b r c = true -> is_flagged (cell_at b r c) = false ->
   is_revealed (cell_at b r c) = false -> is_mine (cell_at b r c) = false) ->
  reveal_cell f b r c = Some (res, b') ->
  res = true /\ safe_rel b b'.
Proof.
  induction f as [|f IH]; intros b r c res b' Hcc Hfc Htgt E; [done|].
  cbn [reveal_cell] in E.
  destruct ((r <? 0) || (height b <=? r) || (c <? 0) || (width b <=? c)) eqn:Hg.
  { injection E as <- <-; split; [done|apply safe_rel_refl]. }
  apply guard_false_in_bounds in Hg as Hin; cbn [orb] in E.
  destruct (is_revealed (cell_at b r c)) eqn:Hrev; cbn [orb] in E.
  { injection E as <- <-; split; [done|apply safe_rel_refl]. }
  destruct (is_flagged (cell_at b r c)) eqn:Hfl.
  { injection E as <- <-; split; [done|apply safe_rel_refl]. }
  specialize (Htgt Hin eq_refl eq_refl) as Hm0.
  pose proof (reveal_rel_update b r c Hfl) as R1.
  set (b1 := update_cell set_revealed b r c) in *.
  assert (S1 : safe_rel b b1).
  { split; [done|]. intros r' c' Hm. unfold b1.
    rewrite cell_at_update_ne; [done|]. intros Heq; injection Heq as -> ->; congruence. }
  rewrite (rel_mine _ _ R1), Hm0 in E.
  assert (Hstep_ok : forall bb r' c' res' bb', safe_rel b bb ->
            (in_bounds b r' c' = true -> is_flagged (cell_at b r' c') = false ->
             is_mine (cell_at b r' c') = false) ->
            reveal_cell f bb r' c' = Some (res', bb') -> safe_rel bb bb').
  { intros bb r' c' res' bb' [Rb Mb] Hsafe Er.
    apply (IH bb r' c' res' bb'); [eapply counts_consistent_rel; done|eapply flags_correct_rel; done| |done].
    rewrite (rel_in_bounds _ _ Rb), (rel_flagged _ _ Rb), (rel_mine _ _ Rb); auto. }
  assert (Hadj : adjacent_mines (cell_at b r c) = count_mines_around b r c)
    by (apply counts_consistent_iff; done).
  destruct (if Z.eqb (count_flagged_neighbors b1 r c) (adjacent_mines (cell_at b1 r c))
            then for_offsets (chord_step (reveal_cell f)) r c offsets b1 else Some b1)
    as [b2|] eqn:E2; [|done].
  assert (S2 : safe_rel b1 b2).
  { destruct (Z.eqb _ _) eqn:Heq; [|injection E2 as <-; apply safe_rel_refl].
    apply Z.eqb_eq in Heq.
    rewrite (count_flagged_ext b b1) in Heq by (apply R1 || (intros; apply (rel_flagged _ _ R1))).
    rewrite (rel_adjacent _ _ R1), Hadj in Heq.
    apply (for_offsets_rel safe_rel (chord_step (reveal_cell f)) r c offsets
             safe_rel_refl safe_rel_trans b1 b2); [|done].
    intros i j bb bb' Hij Sbb Estep. unfold chord_step in Estep.
    destruct (in_bounds bb (r + i) (c + j) && negb (is_flagged (cell_at bb (r + i) (c + j))));
      [|injection Estep as <-; apply safe_rel_refl].
    destruct (reveal_cell f bb (r + i) (c + j)) as [[res' bb'']|] eqn:Er; [|done].
    injection Estep as <-.
    apply (Hstep_ok bb (r + i) (c + j) res'); [eapply safe_rel_trans; done| |done].
    apply (chord_neighbors_safe b r c Hfc Heq i j Hij). }
  destruct (Z.eqb (adjacent_mines (cell_at b2 r c)) 0) eqn:Hz.
  - destruct (for_offsets (cascade_step (reveal_cell f)) r c offsets b2) as [b3|] eqn:E3;
      [|done].
    injection E as <- <-. split; [done|].
    apply safe_rel_trans with b1; [done|]. apply safe_rel_trans with b2; [done|].
    apply Z.eqb_eq in Hz.
    rewrite (rel_adjacent _ _ (proj1 S2)), (rel_adjacent _ _ R1), Hadj in Hz.
    apply (for_offsets_rel safe_rel (cascade_step (reveal_cell f)) r c offsets
             safe_rel_refl safe_rel_trans b2 b3); [|done].
    intros i j bb bb' Hij Sbb Estep. unfold cascade_step in Estep.
    destruct (reveal_cell f bb (r + i) (c + j)) as [[res' bb'']|] eqn:Er; [|done].
    injection Estep as <-.
    apply (Hstep_ok bb (r + i) (c + j) res'); [|intros Hin' _; apply (zero_neighbors_safe b r c Hz i j Hij Hin')|done].
    apply safe_rel_trans with b1; [done|]. apply safe_rel_trans with b2; done.
  - injection E as <- <-. split; [done|]. eapply safe_rel_trans; done.
Qed.

(** X5. reveal_cell: on a rectangular board whose counts are consistent and whose flags all
    sit on mines, revealing a non-mine cell succeeds and returns [true]. The cascade through
    zero cells and chording never changes the revealed status of any mine. *)
Theorem reveal_cell_safe b r c :
  rectangular b -> counts_consistent b = true -> flags_correct b ->
  is_mine (cell_at b r c) = false ->
  exists b', reveal_cell (reveal_fuel b) b r c = Some (true, b') /\
    forall r' c', is_mine (cell_at b r' c') = true ->
      is_revealed (cell_at b' r' c') = is_revealed (cell_at b r' c').
Proof.
  intros Hrect Hcc Hfc Hm.
  destruct (reveal_cell_spec (reveal_fuel b) b r c Hrect (unrevealed_fuel b))
    as (res & b' & E & _).
  destruct (reveal_cell_safe_gen _ b r c res b' Hcc Hfc (fun _ _ _ => Hm) E) as [-> [_ M]].
  exists b'; done.
Qed.

Lemma reveal_cell_safe_witness :
  (rectangular row_m10 /\ counts_consistent row_m10 = true /\ flags_correct row_m10 /\
   is_mine (cell_at row_m10 0 2) = false) /\
  exists b', reveal_cell (reveal_fuel row_m10) row_m10 0 2 = Some (true, b') /\
    forall r' c', is_mine (cell_at row_m10 r' c') = true ->
      is_revealed (cell_at b' r' c') = is_revealed (cell_at row_m10 r' c').
Proof.
  assert (H1 : rectangular row_m10) by (vm_compute; repeat constructor).
  assert (H2 : counts_consistent row_m10 = true) by (vm_compute; reflexivity).
  assert (H3 : flags_correct row_m10) by (vm_compute; repeat constructor).
  assert (H4 : is_mine (cell_at row_m10 0 2) = false) by (vm_compute; reflexivity).
  split; [split_and!; assumption|]. apply (reveal_cell_safe row_m10 0 2 H1 H2 H3 H4).
Defined.

(** ** The display *)

Lemma fold_count_row (p : Cell -> bool) row n :
  fold_left (fun n cell => if p cell then n + 1 else n) row n =
  n + Z.of_nat (sum_list_with (fun x => if p x then 1%nat else 0%nat) row).
Proof.
  revert n; induction row as [|x row IH]; intros n; simpl; [lia|].
  rewrite IH; destruct (p x); lia.
Qed.

Lemma remaining_mines_cells b :
  remaining_mines b = Z.of_nat (cells_where (fun x => is_mine x && negb (is_flagged x)) b).
Proof.
  unfold remaining_mines, cells_where.
  enough (forall n, fold_left (fun n row => fold_left (fun n cell =>
            if is_mine cell && negb (is_flagged cell) then n + 1 else n) row n) b n =
          n + Z.of_nat (sum_list_with (sum_list_with (fun x =>
            if is_mine x && negb (is_flagged x) then 1%nat else 0%nat)) b)) by (rewrite H; lia).
  induction b as [|row b IH]; intros n; simpl; [lia|].
  rewrite IH, (fold_count_row (fun x => is_mine x && negb (is_flagged x))); lia.
Qed.

(** X7. display_board's remaining-mines counter: toggling the flag on an unrevealed
    in-bounds cell changes the counter by -1 when a mine is flagged and by +1 when a mine is
    unflagged. It does not change when the cell is not a mine. So the counter shows whether
    a flag sits on a mine. *)
Theorem remaining_mines_toggle_flag b r c :
  rectangular b -> in_bounds b r c = true -> is_revealed (cell_at b r c) = false ->
  remaining_mines (toggle_flag_cell b r c) =
  remaining_mines b +
    (if is_mine (cell_at b r c) then (if is_flagged (cell_at b r c) then 1 else -1) else 0).
Proof.
  intros Hrect Hin Hrev; unfold toggle_flag_cell; rewrite Hin, Hrev; simpl.
  rewrite !remaining_mines_cells.
  pose proof (cells_where_update (fun x => is_mine x && negb (is_flagged x))
                (fun x => set_flagged (negb (is_flagged x)) x) b r c Hrect Hin) as E.
  simpl in E. destruct (is_mine (cell_at b r c)), (is_flagged (cell_at b r c)); simpl in *; lia.
Qed.

Lemma display_cell_hides x y is_cursor :
  is_revealed x = is_revealed y -> is_flagged x = is_flagged y -> safe_start x = safe_start y ->
  (is_revealed x = true -> x = y) ->
  display_cell x is_cursor = display_cell y is_cursor.
Proof.
  intros Hr Hf Hs Heq.
  destruct (is_revealed x) eqn:Hrx; [rewrite Heq; done|].
  destruct x as [mx rx fx sx ax], y as [my ry fy sy ay]; simpl in *; subst.
  unfold display_cell, get_color_pair; simpl.
  destruct fy, is_cursor; simpl; done.
Qed.

(** X8. display_board's cell grid: two boards of the same shape with the same revealed,
    flagged and safe-start status everywhere draw the same glyph and colour pair in every
    cell, when their revealed cells are equal. The remaining-mines counter printed above the
    grid is not covered: it does depend on hidden mines (X7). *)
Theorem display_board_hides_unrevealed b1 b2 cursor_row cursor_col :
  shape b1 = shape b2 ->
  (forall r c, is_revealed (cell_at b1 r c) = is_revealed (cell_at b2 r c) /\
     is_flagged (cell_at b1 r c) = is_flagged (cell_at b2 r c) /\
     safe_start (cell_at b1 r c) = safe_start (cell_at b2 r c) /\
     (is_revealed (cell_at b1 r c) = true -> cell_at b1 r c = cell_at b2 r c)) ->
  snd (display_board b1 cursor_row cursor_col) = snd (display_board b2 cursor_row cursor_col).
Proof.
  intros Hs H; unfold display_board; simpl.
  rewrite (height_shape b2 b1 Hs), (width_shape b2 b1 Hs).
  apply map_ext; intros row; apply map_ext; intros col.
  destruct (H row col) as (? & ? & ? & ?); apply display_cell_hides; done.
Qed.

(** ** Key handling and the game loop *)

Lemma shape_flag_adjacent_cells b row col : shape (flag_adjacent_cells b row col) = shape b.
Proof.
  unfold flag_adjacent_cells; generalize offsets as offs.
  intros offs; revert b; induction offs as [|[i j] offs IH]; intros b; simpl; [done|].
  rewrite IH, shape_flag_cell; done.
Qed.

Lemma action_ok vim ch st :
  rectangular (board st) -> 0 < height (board st) -> 0 < width (board st) ->
  0 <= cursor_row st < height (board st) -> 0 <= cursor_col st < width (board st) ->
  exists st', action vim ch st = Some st' /\ shape (board st') = shape (board st) /\
    0 <= cursor_row st' < height (board st) /\ 0 <= cursor_col st' < width (board st).
Proof.
  intros Hrect Hh Hw Hr Hc; unfold action.
  destruct (direction_keys vim) as [[[up_key down_key] left_key] right_key].
  destruct (ch =? up_key); [eexists; split; [done|]; simpl; split_and!; [done|lia..]|].
  destruct (ch =? down_key); [eexists; split; [done|]; simpl; split_and!; [done|lia..]|].
  destruct (ch =? left_key); [eexists; split; [done|]; simpl; split_and!; [done|lia..]|].
  destruct (ch =? right_key); [eexists; split; [done|]; simpl; split_and!; [done|lia..]|].
  destruct (ch =? key "d").
  { destruct (reveal_cell_spec (reveal_fuel (board st)) (board st) (cursor_row st) (cursor_col st)
                Hrect (unrevealed_fuel _)) as (res & b' & E & R & _).
    rewrite E; eexists; split; [done|]. destruct res; simpl; split_and!; try lia; apply R. }
  destruct (ch =? key "D").
  { destruct (reveal_adjacent_cells_spec (reveal_fuel (board st)) (board st) (cursor_row st)
                (cursor_col st) Hrect (unrevealed_fuel _)) as (res & b' & E & R).
    rewrite E; eexists; split; [done|]. destruct res; simpl; split_and!; try lia; apply R. }
  destruct (ch =? key "f").
  { eexists; split; [done|]; simpl; split_and!; [apply shape_toggle_flag_cell|lia..]. }
  destruct (ch =? key "F").
  { eexists; split; [done|]; simpl; split_and!; [apply shape_flag_adjacent_cells|lia..]. }
  destruct (ch =? key "q"); (eexists; split; [done|]; simpl; split_and!; [done|lia..]).
Qed.

(** X9. start_game's input loop: on a non-empty rectangular board with the cursor in bounds,
    any sequence of keys ends with the board's shape unchanged and the cursor still in bounds. *)
Theorem game_loop_in_bounds vim keys st :
  rectangular (board st) -> 0 < height (board st) -> 0 < width (board st) ->
  0 <= cursor_row st < height (board st) -> 0 <= cursor_col st < width (board st) ->
  exists st', game_loop vim keys st = Some st' /\ shape (board st') = shape (board st) /\
    0 <= cursor_row st' < height (board st) /\ 0 <= cursor_col st' < width (board st).
Proof.
  revert st; induction keys as [|ch keys IH]; intros st Hrect Hh Hw Hr Hc; simpl.
  { destruct (game_over st); exists st; split_and!; first [done|lia]. }
  destruct (game_over st); [exists st; split_and!; first [done|lia]|].
  destruct (action_ok vim ch st Hrect Hh Hw Hr Hc) as (st1 & E & Hs & Hr1 & Hc1).
  rewrite E.
  set (st2 := if field_clear (board st1) then set_game_over st1 else st1).
  assert (Hb : board st2 = board st1 /\ cursor_row st2 = cursor_row st1 /\ cursor_col st2 = cursor_col st1)
    by (unfold st2; destruct (field_clear _); done).
  destruct Hb as (Hb & Hr2 & Hc2).
  rewrite <- (height_shape _ _ Hs) in Hh, Hr1; rewrite <- (width_shape _ _ Hs) in Hw, Hc1.
  destruct (IH st2) as (st' & E' & Hs' & Hr' & Hc'); rewrite ?Hb, ?Hr2, ?Hc2; try done.
  { eapply rectangular_shape; [exact Hs|done]. }
  exists st'; rewrite Hb in Hs', Hr', Hc'.
  rewrite (height_shape _ _ Hs) in Hr'; rewrite (width_shape _ _ Hs) in Hc'.
  split_and!; [done|congruence|lia..].
Qed.

Lemma game_loop_in_bounds_witness :
  (rectangular (board (mkState 0 0 row_0000 false)) /\ 0 < height (board (mkState 0 0 row_0000 false)) /\
   0 < width (board (mkState 0 0 row_0000 false)) /\
   0 <= cursor_row (mkState 0 0 row_0000 false) < height (board (mkState 0 0 row_0000 false)) /\
   0 <= cursor_col (mkState 0 0 row_0000 false) < width (board (mkState 0 0 row_0000 false))) /\
  exists st', game_loop false [KEY_UP; KEY_RIGHT; KEY_DOWN] (mkState 0 0 row_0000 false) = Some st' /\
    shape (board st') = shape row_0000 /\
    0 <= cursor_row st' < height row_0000 /\ 0 <= cursor_col st' < width row_0000.
Proof.
  assert (H1 : rectangular row_0000) by (vm_compute; repeat constructor).
  split; [vm_compute; split_and!; first [exact H1|done|split; discriminate]|].
  apply (game_loop_in_bounds false [KEY_UP; KEY_RIGHT; KEY_DOWN] (mkState 0 0 row_0000 false) H1);
    vm_compute; first [done|split; discriminate].
Defined.

(** X10. start_game: pressing [q] in a running game that is not cleared ends the loop with
    the board unchanged. The message printed is the losing one, "You hit a mine :(". *)
Theorem quit_reports_loss vim keys st :
  game_over st = false -> field_clear (board st) = false ->
  exists st', game_loop vim (key "q" :: keys) st = Some st' /\
    board st' = board st /\ game_over st' = true /\
    final_message (board st') = "You hit a mine :(".
Proof.
  intros Hgo Hfc; simpl; rewrite Hgo.
  assert (E : action vim (key "q") st = Some (set_game_over st))
    by (unfold action; destruct vim; reflexivity).
  rewrite E; simpl. rewrite Hfc.
  eexists; split_and!; [destruct keys; reflexivity|done|done|]. unfold final_message; simpl; rewrite Hfc; done.
Qed.

Lemma quit_reports_loss_witness :
  (game_over (mkState 0 0 row_0000 false) = false /\ field_clear (board (mkState 0 0 row_0000 false)) = false) /\
  exists st', game_loop true [key "q"] (mkState 0 0 row_0000 false) = Some st' /\
    board st' = row_0000 /\ game_over st' = true /\
    final_message (board st') = "You hit a mine :(".
Proof.
  split; [split; vm_compute; reflexivity|].
  apply (quit_reports_loss true [] (mkState 0 0 row_0000 false)); vm_compute; reflexivity.
Defined.

(** ** Loading a board from a file *)

Lemma read_row_spec values : forall row mine_count row' mine_count',
  read_row values row mine_count = Some (row', mine_count') ->
  exists cells, row' = row ++ cells /\ length cells = length values /\
    mine_count' = mine_count + Z.of_nat (sum_list_with (fun x => if is_mine x then 1%nat else 0%nat) cells) /\
    Forall (fun x => is_revealed x = false /\ is_flagged x = false /\ safe_start x = false /\
                     (is_mine x = true -> adjacent_mines x = 0)) cells.
Proof.
  induction values as [|v values IH]; intros row mc row' mc' E; simpl in E.
  - injection E as <- <-; exists []; rewrite app_nil_r; split_and!; simpl; try done; lia.
  - destruct (String.eqb v "M").
    + destruct (IH _ _ _ _ E) as (cells & -> & Hl & Hc & Hf).
      exists (mkCell true false false false 0 :: cells); rewrite <- app_assoc; simpl.
      split_and!; [done|lia|lia|constructor; [simpl; done|done]].
    + destruct (stoi v) as [n|]; [|done].
      destruct (IH _ _ _ _ E) as (cells & -> & Hl & Hc & Hf).
      exists (mkCell false false false false n :: cells); rewrite <- app_assoc; simpl.
      split_and!; [done|lia|lia|constructor; [simpl; split_and!; done|done]].
Qed.

Lemma read_rows_spec lines : forall board mine_count board' mine_count',
  read_rows lines board mine_count = Some (board', mine_count') ->
  exists rows, board' = board ++ rows /\
    Forall2 (fun row line => length row = length (tokens line)) rows lines /\
    mine_count' = mine_count + Z.of_nat (cells_where is_mine rows) /\
    all_cells (fun x => is_revealed x = false /\ is_flagged x = false /\ safe_start x = false /\
                        (is_mine x = true -> adjacent_mines x = 0)) rows.
Proof.
  induction lines as [|line lines IH]; intros board mc board' mc' E; simpl in E.
  - injection E as <- <-; exists []; rewrite app_nil_r.
    split_and!; [done|constructor|unfold cells_where; simpl; lia|constructor].
  - destruct (read_row (tokens line) [] mc) as [[row mc1]|] eqn:Er; [|done].
    destruct (read_row_spec _ _ _ _ _ Er) as (cells & Hrow & Hl & Hc & Hf); simpl in Hrow; subst row.
    destruct (IH _ _ _ _ E) as (rows & -> & H2 & Hc' & Hf').
    exists (cells :: rows); rewrite <- app_assoc; simpl.
    split_and!; [done|constructor; done| |constructor; done].
    unfold cells_where in *; simpl; lia.
Qed.

(** X6. read_board_from_file: a board it returns has one row per line of the file and one
    cell per whitespace-separated token of that line. The returned mine count is the number of
    mine cells. Every cell is unrevealed, unflagged and not a safe start, and mines have count 0. *)
Theorem read_board_from_file_spec content b mine_count :
  read_board_from_file (Some content) = Some (b, mine_count) ->
  mine_count = Z.of_nat (cells_where is_mine b) /\
  Forall2 (fun row line => length row = length (tokens line)) b (getline_lines content) /\
  all_cells (fun x => is_revealed x = false /\ is_flagged x = false /\ safe_start x = false /\
                      (is_mine x = true -> adjacent_mines x = 0)) b.
Proof.
  intros E; destruct (read_rows_spec _ _ _ _ _ E) as (rows & -> & H1 & H2 & H3).
  simpl; split_and!; [lia|done|done].
Qed.

Lemma read_row_none values : forall row mine_count,
  read_row values row mine_count = None <->
  exists t, t ∈ values /\ t <> "M" /\ stoi t = None.
Proof.
  induction values as [|v values IH]; intros row mc; simpl.
  - split; [done|]. intros (t & Ht & _); by apply elem_of_nil in Ht.
  - destruct (String.eqb v "M") eqn:Ev.
    + apply String.eqb_eq in Ev as ->. rewrite IH. split.
      * intros (t & Ht & Hm & Hs); exists t; split_and!; [by apply elem_of_cons; right|done|done].
      * intros (t & Ht & Hm & Hs). apply elem_of_cons in Ht as [->|Ht]; [done|]. exists t; done.
    + apply String.eqb_neq in Ev. destruct (stoi v) as [n|] eqn:Es.
      * rewrite IH. split.
        -- intros (t & Ht & Hm & Hs); exists t; split_and!; [by apply elem_of_cons; right|done|done].
        -- intros (t & Ht & Hm & Hs). apply elem_of_cons in Ht as [->|Ht]; [congruence|]. exists t; done.
      * split; [|done]. intros _; exists v; split_and!; [by apply elem_of_cons; left|done|done].
Qed.

Lemma read_rows_none lines : forall board mine_count,
  read_rows lines board mine_count = None <->
  exists line t, line ∈ lines /\ t ∈ tokens line /\ t <> "M" /\ stoi t = None.
Proof.
  induction lines as [|line lines IH]; intros board mc; simpl.
  - split; [done|]. intros (? & t & Ht & _); by apply elem_of_nil in Ht.
  - destruct (read_row (tokens line) [] mc) as [[row mc1]|] eqn:Er.
    + rewrite IH. split.
      * intros (l & t & Hl & Ht & Hm & Hs); exists l, t; split_and!; [by apply elem_of_cons; right|done..].
      * intros (l & t & Hl & Ht & Hm & Hs). apply elem_of_cons in Hl as [->|Hl].
        -- assert (Hn : read_row (tokens line) [] mc = None) by (apply read_row_none; exists t; done).
           congruence.
        -- exists l, t; done.
    + split; [|done]. intros _. apply read_row_none in Er as (t & Ht & Hm & Hs).
      exists line, t; split_and!; [by apply elem_of_cons; left|done..].
Qed.

(** X11. read_board_from_file: reading an existing file fails exactly when some token of
    some line is neither "M" nor an integer that stoi accepts. *)
Theorem read_board_from_file_fails content :
  read_board_from_file (Some content) = None <->
  exists line t, line ∈ getline_lines content /\ t ∈ tokens line /\ t <> "M" /\ stoi t = None.
Proof. apply read_rows_none. Qed.

(** ** The command line and the board setup *)

Lemma handle_args_early n : forall args o e,
  (length args <= n)%nat ->
  handle_args args o e =
  match handle_args args o false with
  | Some (o', e') => Some (o', e || e')
  | None => None
  end.
Proof.
  induction n as [|n IH]; intros args o e Hlen.
  { destruct args; [simpl; rewrite orb_false_r; done|simpl in Hlen; lia]. }
  destruct args as [|arg rest]; [simpl; rewrite orb_false_r; done|]. simpl in Hlen.
  cbn [handle_args].
  destruct rest as [|v rest'].
  - rewrite !andb_false_r.
    destruct (String.eqb arg "--ng"); [apply IH; simpl in *; lia|].
    destruct (String.eqb arg "--vim"); [apply IH; simpl in *; lia|].
    destruct (String.eqb arg "--help"); simpl; rewrite orb_true_r; done.
  - rewrite !andb_true_r.
    destruct (String.eqb arg "--width");
      [destruct (stoi v); [apply IH; simpl in *; lia|done]|].
    destruct (String.eqb arg "--height");
      [destruct (stoi v); [apply IH; simpl in *; lia|done]|].
    destruct (String.eqb arg "--mines");
      [destruct (stoi v); [apply IH; simpl in *; lia|done]|].
    destruct (String.eqb arg "--ng"); [apply IH; simpl in *; lia|].
    destruct (String.eqb arg "--vim"); [apply IH; simpl in *; lia|].
    destruct (String.eqb arg "--file"); [apply IH; simpl in *; lia|].
    rewrite (IH (v :: rest') o true) by (simpl in *; lia).
    destruct (String.eqb arg "--help"); destruct (handle_args (v :: rest') o false) as [[o' e']|];
      simpl; rewrite ?orb_true_r; done.
Qed.

(** X12. handle_command_line_args and start_game: a first argument that is not one of the six
    recognised options sets [early_return]. start_game ignores that flag: with such an argument
    placed first, the board set up before the no-guess step is the same as without it. *)
Theorem start_board_ignores_early_return a args files rands :
  a ∉ ["--width"; "--height"; "--mines"; "--ng"; "--vim"; "--file"] ->
  (forall o e, handle_command_line_args (a :: args) default_options = Some (o, e) -> e = true) /\
  start_board (a :: args) files rands = start_board args files rands.
Proof.
  intros Ha.
  assert (E : handle_command_line_args (a :: args) default_options =
              match handle_command_line_args args default_options with
              | Some (o', _) => Some (o', true) | None => None end).
  { unfold handle_command_line_args; cbn [handle_args].
    assert (Hne : forall s, s ∈ ["--width"; "--height"; "--mines"; "--ng"; "--vim"; "--file"] ->
                  String.eqb a s = false)
      by (intros s Hs; apply String.eqb_neq; intros ->; done).
    rewrite (Hne "--width"), (Hne "--height"), (Hne "--mines"), (Hne "--ng"), (Hne "--vim"),
      (Hne "--file") by set_solver.
    simpl. rewrite (handle_args_early (length args)) by lia.
    destruct (String.eqb a "--help"), (handle_args args default_options false) as [[o' e']|]; done. }
  split.
  - intros o e; rewrite E; destruct (handle_command_line_args args default_options) as [[o' e']|];
      [intros H; injection H as <- <-; done|done].
  - unfold start_board; rewrite E.
    destruct (handle_command_line_args args default_options) as [[o' e']|]; done.
Qed.

Lemma start_board_ignores_early_return_witness :
  ("--help" ∉ ["--width"; "--height"; "--mines"; "--ng"; "--vim"; "--file"]) /\
  (forall o e, handle_command_line_args ["--help"; "--width"; "4"] default_options = Some (o, e) ->
     e = true) /\
  start_board ["--help"; "--width"; "4"] (fun _ => None) [0; 0] =
  start_board ["--width"; "4"] (fun _ => None) [0; 0].
Proof.
  assert (H : "--help" ∉ ["--width"; "--height"; "--mines"; "--ng"; "--vim"; "--file"])
    by (apply (bool_decide_unpack _); vm_compute; exact I).
  split; [exact H|]. apply (start_board_ignores_early_return "--help" ["--width"; "4"]); exact H.
Defined.

(** X13. start_game passes the width where generate_board expects the height. So the board it
    generates before the no-guess step has [width] rows of [height] cells. The mine count it
    keeps is the mines option. *)
Theorem start_board_transposed args files rands b mine_count o :
  start_board args files rands = Some (b, mine_count, o) ->
  opt_file_path o = "" -> 0 < opt_width o -> 0 < opt_height o ->
  shape b = repeat (Z.to_nat (opt_height o)) (Z.to_nat (opt_width o)) /\
  mine_count = opt_mines_count o.
Proof.
  unfold start_board; intros E Hf Hw Hh.
  destruct (handle_command_line_args args default_options) as [[o' e]|]; [|done].
  destruct (negb (String.eqb (opt_file_path o') "")) eqn:Hfile.
  - destruct (read_board_from_file (files (opt_file_path o'))) as [[b' mc]|]; [|done].
    injection E as <- <- <-. rewrite Hf in Hfile; done.
  - destruct (generate_board (opt_mines_count o') (opt_width o') (opt_height o') rands)
      as [b'|] eqn:Eg; [|done].
    injection E as <- <- <-. split; [|done].
    unfold generate_board in Eg.
    rewrite (proj2 (orb_false_iff _ _) (conj (proj2 (Z.ltb_ge (opt_width o') 0) ltac:(lia))
                                              (proj2 (Z.ltb_ge (opt_height o') 0) ltac:(lia)))) in Eg.
    destruct (place_mines (opt_mines_count o') rands (empty_board (opt_width o') (opt_height o')) 0)
      as [b1|] eqn:E1; [|done].
    injection Eg as <-.
    assert (Hr : rectangular (empty_board (opt_width o') (opt_height o')))
      by (apply rectangular_empty_board; lia).
    destruct (place_mines_spec (opt_mines_count o') (length rands) rands _ 0 b1 (le_n _) Hr) as (Hs1 & _ & _); try done.
    + rewrite height_empty_board; lia.
    + rewrite width_empty_board; lia.
    + apply all_cells_empty_board; done.
    + rewrite cells_where_empty_board; done.
    + destruct (set_adjacency_spec b1) as [[Hs2 _] _].
      { eapply rectangular_shape; [exact Hs1|apply rectangular_empty_board; lia]. }
      rewrite Hs2, Hs1, shape_empty_board; done.
Qed.

Lemma start_board_transposed_witness :
  exists b mine_count o,
    (start_board ["--width"; "4"; "--height"; "2"; "--mines"; "1"] (fun _ => None) [0; 0; 1; 1] =
       Some (b, mine_count, o) /\
     opt_file_path o = "" /\ 0 < opt_width o /\ 0 < opt_height o) /\
    shape b = repeat (Z.to_nat (opt_height o)) (Z.to_nat (opt_width o)) /\
    mine_count = opt_mines_count o.
Proof.
  eexists _, _, _. split.
  - split_and!; [vm_compute; reflexivity|vm_compute; reflexivity..].
  - apply (start_board_transposed ["--width"; "4"; "--height"; "2"; "--mines"; "1"]
             (fun _ => None) [0; 0; 1; 1]); vm_compute; reflexivity.
Defined.

Lemma generate_board_spec_witness :
  exists b, (0 < 3 /\ 0 < 4 /\ generate_board 3 3 4 [0; 0; 0; 0; 1; 2; 2; 3] = Some b) /\
    shape b = repeat (Z.to_nat 4) (Z.to_nat 3) /\
    Z.of_nat (cells_where is_mine b) = Z.max 0 3 /\
    all_cells (fun x => is_revealed x = false /\ is_flagged x = false /\ safe_start x = false /\
                        (is_mine x = true -> adjacent_mines x = 0)) b /\
    counts_consistent b = true.
Proof.
  eexists. split.
  - split_and!; [lia|lia|vm_compute; reflexivity].
  - apply (generate_board_spec 3 3 4 [0; 0; 0; 0; 1; 2; 2; 3]); [lia|lia|vm_compute; reflexivity].
Defined.

Lemma generate_board_too_many_mines_witness :
  2 * 2 < 5 /\ generate_board 5 2 2 [0; 0; 1; 1; 0; 1; 1; 0; 3; 3] = None.
Proof.
  split; [lia|]. apply generate_board_too_many_mines; lia.
Defined.

Lemma read_board_from_file_spec_witness :
  exists b mine_count,
    read_board_from_file (Some "0 M 1
1 2 M
") = Some (b, mine_count) /\
    mine_count = Z.of_nat (cells_where is_mine b) /\
    Forall2 (fun row line => length row = length (tokens line)) b (getline_lines "0 M 1
1 2 M
") /\
    all_cells (fun x => is_revealed x = false /\ is_flagged x = false /\ safe_start x = false /\
                        (is_mine x = true -> adjacent_mines x = 0)) b.
Proof.
  eexists _, _. split; [vm_compute; reflexivity|].
  apply read_board_from_file_spec; vm_compute; reflexivity.
Defined.

Lemma remaining_mines_toggle_flag_witness :
  (rectangular row_m10 /\ in_bounds row_m10 0 0 = true /\ is_revealed (cell_at row_m10 0 0) = false) /\
  remaining_mines (toggle_flag_cell row_m10 0 0) =
  remaining_mines row_m10 +
    (if is_mine (cell_at row_m10 0 0) then (if is_flagged (cell_at row_m10 0 0) then 1 else -1) else 0).
Proof.
  assert (H1 : rectangular row_m10) by (vm_compute; repeat constructor).
  split; [split_and!; [exact H1|vm_compute; reflexivity..]|].
  apply remaining_mines_toggle_flag; [exact H1|vm_compute; reflexivity..].
Defined.

Lemma display_board_hides_unrevealed_witness :
  (shape row_m10 = shape row_0m0 /\
   forall r c, is_revealed (cell_at row_m10 r c) = is_revealed (cell_at row_0m0 r c) /\
     is_flagged (cell_at row_m10 r c) = is_flagged (cell_at row_0m0 r c) /\
     safe_start (cell_at row_m10 r c) = safe_start (cell_at row_0m0 r c) /\
     (is_revealed (cell_at row_m10 r c) = true -> cell_at row_m10 r c = cell_at row_0m0 r c)) /\
  snd (display_board row_m10 0 1) = snd (display_board row_0m0 0 1).
Proof.
  assert (Hs : shape row_m10 = shape row_0m0) by reflexivity.
  assert (Hc : forall r c, is_revealed (cell_at row_m10 r c) = is_revealed (cell_at row_0m0 r c) /\
     is_flagged (cell_at row_m10 r c) = is_flagged (cell_at row_0m0 r c) /\
     safe_start (cell_at row_m10 r c) = safe_start (cell_at row_0m0 r c) /\
     (is_revealed (cell_at row_m10 r c) = true -> cell_at row_m10 r c = cell_at row_0m0 r c)).
  { intros r c; unfold cell_at; simpl.
    destruct ((r <? 0) || (c <? 0)); [split_and!; done|].
    destruct (Z.to_nat r) as [|[|]]; simpl; [|split_and!; done..].
    destruct (Z.to_nat c) as [|[|[|]]]; simpl; split_and!; done. }
  split; [split; [exact Hs|exact Hc]|].
  apply (display_board_hides_unrevealed row_m10 row_0m0 0 1 Hs Hc).
Defined.

End GameFacts.
